(** * Graphe<T> : directed graph with adjacency lists (Lab5/Graphe/src/main/Graphe.hpp)

    Shallow embedding of the member functions of [labGrapheAlgorithmes::Graphe<T>]
    and verification of the properties stated about them.

    Conventions of the embedding.
    - [unsigned int] and [size_t] values are natural numbers of type [N];
      [unsigned int] is 32 bits wide, its largest value is [UINT_MAX].  The
      only arithmetic the class performs on [unsigned int] is the counter
      [cpt++] and the loop index [++i] of [ordreEntreeSommet], and the conversion
      of [std::list::size()] to [unsigned int] in [ordreSortieSommet]; the
      wrap-around modulo [UINT_MAX + 1] is written there ([vers_unsigned]).
    - [std::vector] and [std::list] are Rocq lists; [v[i]] is the lookup
      [v !! i], whose failure (index past the end) is undefined behaviour.
    - A member function is a computation [M A]: it receives the object and ends
      with one of four outcomes ([issue]): normal return, exception thrown
      (with the object as it is when the exception leaves the function),
      undefined behaviour, or a loop that never exits.
    - [Graphe.h] (the class declaration) and [ContratException.h] (the contract
      macros) are not part of the sources at hand.  The three data members are
      taken from their uses in the constructor and in [verifieInvariant]; the
      contract macros are taken as a parameter, see [contrats]. *)

From Stdlib Require Import NArith String Lia.
From stdpp Require Import base list.

Local Open Scope N_scope.

(** ** Machine integers *)

Definition UINT_MAX : N := 4294967295.

(** Conversion of a non-negative value to [unsigned int]. *)
Definition vers_unsigned (x : N) : N := x mod (UINT_MAX + 1).

Arguments UINT_MAX : simpl never.
Arguments vers_unsigned : simpl never.

(** ** Exceptions *)

(** [std::logic_error] carries its message; the three contract exceptions
    carry the text of the violated expression. *)
Inductive exception : Type :=
| logic_error (what : string)
| PreconditionException (expr : string)
| PostconditionException (expr : string)
| InvariantException (expr : string).

(** ** Algorithms of the standard library used by the class *)

(** [std::find(l.begin(), l.end(), x)]: position of the first element equal to
    [x]; [None] is the past-the-end iterator. *)
Fixpoint find (l : list N) (x : N) : option nat :=
  match l with
  | [] => None
  | y :: l' => if y =? x then Some O else S <$> find l' x
  end.

Declare Scope graphe_scope.

Section Graphe.

(** The label type and its value-initialised element [T()]. *)
Variable T : Type.
Variable T_defaut : T.

(** State of the contract macros [PRECONDITION], [POSTCONDITION], [INVARIANT]
    and [INVARIANTS] of [ContratException.h]: [true] when they are active
    (each one throws its exception when its expression is false), [false]
    when they are compiled out ([NDEBUG]) and expand to nothing. *)
Variable contrats : bool.

(** ** The object *)

Record Graphe : Type := mkGraphe {
  m_nbSommets : N;
  m_noms : list T;
  m_listesAdj : list (list N)
}.

(** ** Outcomes and computations *)

Inductive issue (A : Type) : Type :=
| Retour (g : Graphe) (a : A)
| Leve (g : Graphe) (e : exception)
| Indefini
| Diverge.

Arguments Retour {A} g a.
Arguments Leve {A} g e.
Arguments Indefini {A}.
Arguments Diverge {A}.

Definition M (A : Type) : Type := Graphe → issue A.

Definition ret {A} (a : A) : M A := λ g, Retour g a.

Definition bind {A B} (m : M A) (f : A → M B) : M B := λ g,
  match m g with
  | Retour g' a => f a g'
  | Leve g' e => Leve g' e
  | Indefini => Indefini
  | Diverge => Diverge
  end.

Notation "x ← y ; z" := (bind y (λ x, z))
  (at level 20, y at level 100, z at level 200, only parsing) : graphe_scope.
Notation "x ;; z" := (bind x (λ _, z))
  (at level 100, z at level 200, only parsing, right associativity) : graphe_scope.
Local Open Scope graphe_scope.

Definition lire : M Graphe := λ g, Retour g g.
Definition ecrire (g' : Graphe) : M unit := λ _, Retour g' tt.
Definition throw {A} (e : exception) : M A := λ g, Leve g e.
Definition indefini {A} : M A := λ _, Indefini.

(** [v[i]] on a [std::vector]: no bounds check. *)
Definition indice {A} (v : list A) (i : N) : M A :=
  match v !! N.to_nat i with
  | Some x => ret x
  | None => indefini
  end.

(** ** Contract macros *)

Definition PRECONDITION (expr : string) (f : M bool) : M unit :=
  if contrats then
    b ← f; if b then ret tt else throw (PreconditionException expr)
  else ret tt.

Definition POSTCONDITION (expr : string) (f : M bool) : M unit :=
  if contrats then
    b ← f; if b then ret tt else throw (PostconditionException expr)
  else ret tt.

Definition INVARIANT (expr : string) (f : M bool) : M unit :=
  if contrats then
    b ← f; if b then ret tt else throw (InvariantException expr)
  else ret tt.

Definition verifieInvariant : M unit :=
  INVARIANT "m_noms.size() == m_nbSommets"
    (g ← lire; ret (N.of_nat (length (m_noms g)) =? m_nbSommets g));;
  INVARIANT "m_listesAdj.size() == m_nbSommets"
    (g ← lire; ret (N.of_nat (length (m_listesAdj g)) =? m_nbSommets g)).

Definition INVARIANTS : M unit :=
  if contrats then verifieInvariant else ret tt.

(** ** Constructor *)

Definition Graphe_init (p_nbSommets : N) : Graphe :=
  {| m_nbSommets := p_nbSommets;
     m_noms := replicate (N.to_nat p_nbSommets) T_defaut;
     m_listesAdj := replicate (N.to_nat p_nbSommets) [] |}.

(** ** Member functions *)

Definition sommet_valide (p_sommet : N) : M bool :=
  g ← lire; ret (p_sommet <? m_nbSommets g).

Definition nommer (p_sommet : N) (p_nom : T) : M unit :=
  PRECONDITION "p_sommet < m_nbSommets" (sommet_valide p_sommet);;
  g ← lire;
  if m_nbSommets g <=? p_sommet then
    throw (logic_error "nommer: numéro de sommet invalide.")
  else
    _ ← indice (m_noms g) p_sommet;
    ecrire {| m_nbSommets := m_nbSommets g;
              m_noms := <[N.to_nat p_sommet := p_nom]> (m_noms g);
              m_listesAdj := m_listesAdj g |};;
    INVARIANTS.

Definition reqNom (p_sommet : N) : M T :=
  PRECONDITION "p_sommet < m_nbSommets" (sommet_valide p_sommet);;
  g ← lire;
  if m_nbSommets g <=? p_sommet then
    throw (logic_error "reqNom: numéro de sommet invalide.")
  else indice (m_noms g) p_sommet.

Definition arcExiste (p_source p_cible : N) : M bool :=
  PRECONDITION "p_source < m_nbSommets" (sommet_valide p_source);;
  PRECONDITION "p_cible < m_nbSommets" (sommet_valide p_cible);;
  g ← lire;
  if m_nbSommets g <=? p_source then
    throw (logic_error "arcExiste: numéro de sommet source invalide.")
  else if m_nbSommets g <=? p_cible then
    throw (logic_error "arcExiste: numéro de sommet cible invalide.")
  else
    liste ← indice (m_listesAdj g) p_source;
    ret (match find liste p_cible with Some _ => true | None => false end).

Definition ajouterArc (p_source p_cible : N) : M unit :=
  PRECONDITION "p_source < m_nbSommets" (sommet_valide p_source);;
  PRECONDITION "p_cible < m_nbSommets" (sommet_valide p_cible);;
  PRECONDITION "!arcExiste(p_source, p_cible)"
    (existe ← arcExiste p_source p_cible; ret (negb existe));;
  g ← lire;
  if m_nbSommets g <=? p_source then
    throw (logic_error "nommer: numéro de sommet source invalide.")
  else if m_nbSommets g <=? p_cible then
    throw (logic_error "nommer: numéro de sommet cible invalide.")
  else
    existe ← arcExiste p_source p_cible;
    if existe then throw (logic_error "ajouterArc: l'arc existe déjà")
    else
      liste ← indice (m_listesAdj g) p_source;
      ecrire {| m_nbSommets := m_nbSommets g;
                m_noms := m_noms g;
                m_listesAdj :=
                  <[N.to_nat p_source := liste ++ [p_cible]]> (m_listesAdj g) |};;
      POSTCONDITION "arcExiste(p_source, p_cible)" (arcExiste p_source p_cible);;
      INVARIANTS.

Definition enleverArc (p_source p_cible : N) : M unit :=
  PRECONDITION "arcExiste(p_source, p_cible)" (arcExiste p_source p_cible);;
  g ← lire;
  liste ← indice (m_listesAdj g) p_source;
  match find liste p_cible with
  | None => throw (logic_error "enlever: l'arc est inexistant")
  | Some it =>
      ecrire {| m_nbSommets := m_nbSommets g;
                m_noms := m_noms g;
                m_listesAdj :=
                  <[N.to_nat p_source := delete it liste]> (m_listesAdj g) |};;
      POSTCONDITION "!arcExiste(p_source, p_cible)"
        (existe ← arcExiste p_source p_cible; ret (negb existe));;
      INVARIANTS
  end.

Definition reqNbSommets : M N :=
  g ← lire; ret (m_nbSommets g).

Definition listerSommetsAdjacents (p_sommet : N) : M (list N) :=
  PRECONDITION "p_sommet < m_nbSommets" (sommet_valide p_sommet);;
  g ← lire;
  if m_nbSommets g <=? p_sommet then
    throw (logic_error "listerSommetsAdjacents: numéro de sommet invalide.")
  else
    liste ← indice (m_listesAdj g) p_sommet;
    ret (fold_left (λ v x, v ++ [x]) liste []).

(** Inner loop of [ordreEntreeSommet]: one pass over an adjacency list. *)
Definition compte_liste (p_sommet : N) (liste : list N) (cpt : N) : N :=
  fold_left (λ cpt x, if x =? p_sommet then vers_unsigned (cpt + 1) else cpt)
            liste cpt.

(** Outer loop [for (unsigned int i = 0; i < m_nbSommets; ++i)].  [tests] bounds
    the number of evaluations of the loop condition. *)
Fixpoint boucle_sommets (tests : nat) (p_sommet i cpt : N) : M N :=
  match tests with
  | O => λ _, Diverge
  | S tests' =>
      g ← lire;
      if i <? m_nbSommets g then
        liste ← indice (m_listesAdj g) i;
        boucle_sommets tests' p_sommet (vers_unsigned (i + 1))
                       (compte_liste p_sommet liste cpt)
      else ret cpt
  end.

(** The loop condition fails at the test number [m_nbSommets + 1] when
    [m_nbSommets] is an [unsigned int] value; otherwise [i] wraps to 0 before
    reaching [m_nbSommets] and the loop never exits. *)
Definition ordreEntreeSommet (p_sommet : N) : M N :=
  PRECONDITION "p_sommet < m_nbSommets" (sommet_valide p_sommet);;
  g ← lire;
  if m_nbSommets g <=? p_sommet then
    throw (logic_error "listerSommetsAdjacents: numéro de sommet invalide.")
  else boucle_sommets (S (N.to_nat (m_nbSommets g))) p_sommet 0 0.

Definition ordreSortieSommet (p_sommet : N) : M N :=
  PRECONDITION "p_sommet < m_nbSommets" (sommet_valide p_sommet);;
  g ← lire;
  if m_nbSommets g <=? p_sommet then
    throw (logic_error "listerSommetsAdjacents: numéro de sommet invalide.")
  else
    liste ← indice (m_listesAdj g) p_sommet;
    ret (vers_unsigned (N.of_nat (length liste))).

(** The four algorithms have an empty body: control flows off the end of a
    function returning a value, which is undefined behaviour. *)
Definition parcoursProfondeur (p_debut : N) : M (list N) := indefini.
Definition parcoursLargeur (p_debut : N) : M (list N) := indefini.
Definition estConnexe : M bool := indefini.
Definition triTopologique : M (list N) := indefini.

(** The calls that build the arcs 0->1, 1->2 and 2->3. *)
Definition construire_chaine : M unit :=
  ajouterArc 0 1;; ajouterArc 1 2;; ajouterArc 2 3.

(** The object with two vertices and the arc 0->1. *)
Definition graphe_un_arc : Graphe :=
  {| m_nbSommets := 2;
     m_noms := [T_defaut; T_defaut];
     m_listesAdj := [[1]; []] |}.

(** A computation that leaves the object as it found it. *)
Definition pure {A} (m : M A) : Prop :=
  ∀ g, match m g with
       | Retour g' _ | Leve g' _ => g' = g
       | Indefini | Diverge => True
       end.

(** ** Calls and accessible states *)

(** A call of a public member function with its arguments.  [affiche] only
    writes to [std::cout] and is left out. *)
Inductive appel : Type :=
| a_nommer (p_sommet : N) (p_nom : T)
| a_ajouterArc (p_source p_cible : N)
| a_enleverArc (p_source p_cible : N)
| a_reqNom (p_sommet : N)
| a_arcExiste (p_source p_cible : N)
| a_reqNbSommets
| a_listerSommetsAdjacents (p_sommet : N)
| a_ordreEntreeSommet (p_sommet : N)
| a_ordreSortieSommet (p_sommet : N)
| a_parcoursProfondeur (p_debut : N)
| a_parcoursLargeur (p_debut : N)
| a_estConnexe
| a_triTopologique.

(** The outcome of a computation without its returned value. *)
Definition oublier {A} (r : issue A) : issue unit :=
  match r with
  | Retour g _ => Retour g tt
  | Leve g e => Leve g e
  | Indefini => Indefini
  | Diverge => Diverge
  end.

Definition executer (a : appel) : M unit := λ g,
  match a with
  | a_nommer p_sommet p_nom => oublier (nommer p_sommet p_nom g)
  | a_ajouterArc p_source p_cible => oublier (ajouterArc p_source p_cible g)
  | a_enleverArc p_source p_cible => oublier (enleverArc p_source p_cible g)
  | a_reqNom p_sommet => oublier (reqNom p_sommet g)
  | a_arcExiste p_source p_cible => oublier (arcExiste p_source p_cible g)
  | a_reqNbSommets => oublier (reqNbSommets g)
  | a_listerSommetsAdjacents p_sommet => oublier (listerSommetsAdjacents p_sommet g)
  | a_ordreEntreeSommet p_sommet => oublier (ordreEntreeSommet p_sommet g)
  | a_ordreSortieSommet p_sommet => oublier (ordreSortieSommet p_sommet g)
  | a_parcoursProfondeur p_debut => oublier (parcoursProfondeur p_debut g)
  | a_parcoursLargeur p_debut => oublier (parcoursLargeur p_debut g)
  | a_estConnexe => oublier (estConnexe g)
  | a_triTopologique => oublier (triTopologique g)
  end.

(** The object a caller holds after a call: after a normal return, or after
    catching the exception. *)
Definition etat_apres {A} (r : issue A) : option Graphe :=
  match r with
  | Retour g _ | Leve g _ => Some g
  | Indefini | Diverge => None
  end.

(** States an object can be in: built by the constructor, then any sequence of
    calls. *)
Inductive accessible : Graphe → Prop :=
| acc_init (p_nbSommets : N) : accessible (Graphe_init p_nbSommets)
| acc_appel (g g' : Graphe) (a : appel) :
    accessible g → etat_apres (executer a g) = Some g' → accessible g'.

(** ** Invariants of the representation *)

(** The two conditions of [verifieInvariant]. *)
Definition tailles (g : Graphe) : Prop :=
  N.of_nat (length (m_noms g)) = m_nbSommets g ∧
  N.of_nat (length (m_listesAdj g)) = m_nbSommets g.

(** No adjacency list holds a target twice. *)
Definition sans_doublon (g : Graphe) : Prop :=
  Forall NoDup (m_listesAdj g).

(** Every target stored in an adjacency list is a vertex id. *)
Definition cibles_valides (g : Graphe) : Prop :=
  Forall (Forall (λ cible, cible < m_nbSommets g)) (m_listesAdj g).

Definition bien_forme (g : Graphe) : Prop :=
  tailles g ∧ sans_doublon g ∧ cibles_valides g.

(** The states written by the three mutators. *)
Definition maj_nom (g : Graphe) (p_sommet : N) (p_nom : T) : Graphe :=
  {| m_nbSommets := m_nbSommets g;
     m_noms := <[N.to_nat p_sommet := p_nom]> (m_noms g);
     m_listesAdj := m_listesAdj g |}.

Definition maj_liste (g : Graphe) (p_source : N) (liste : list N) : Graphe :=
  {| m_nbSommets := m_nbSommets g;
     m_noms := m_noms g;
     m_listesAdj := <[N.to_nat p_source := liste]> (m_listesAdj g) |}.

(** ** Error kinds

    The exceptions of the code behind the failures that the specification
    calls [InvalidVertex], [DuplicateEdge] and [EdgeNotFound]: the contract
    exception of the violated precondition when the macros are active, the
    [std::logic_error] of the explicit test otherwise. *)

Definition InvalidVertex (e : exception) : Prop :=
  match e with
  | PreconditionException expr =>
      expr = "p_sommet < m_nbSommets"%string ∨
      expr = "p_source < m_nbSommets"%string ∨
      expr = "p_cible < m_nbSommets"%string
  | logic_error what =>
      what = "nommer: numéro de sommet invalide."%string ∨
      what = "nommer: numéro de sommet source invalide."%string ∨
      what = "nommer: numéro de sommet cible invalide."%string ∨
      what = "reqNom: numéro de sommet invalide."%string ∨
      what = "arcExiste: numéro de sommet source invalide."%string ∨
      what = "arcExiste: numéro de sommet cible invalide."%string ∨
      what = "listerSommetsAdjacents: numéro de sommet invalide."%string
  | _ => False
  end.

Definition DuplicateEdge (e : exception) : Prop :=
  e = PreconditionException "!arcExiste(p_source, p_cible)" ∨
  e = logic_error "ajouterArc: l'arc existe déjà".

Definition EdgeNotFound (e : exception) : Prop :=
  e = PreconditionException "arcExiste(p_source, p_cible)" ∨
  e = logic_error "enlever: l'arc est inexistant".

(** ** Degree sums *)

Definition valeur_retour {A} (r : issue A) : option A :=
  match r with
  | Retour _ a => Some a
  | _ => None
  end.


(** [somme f n] is [f 0 + ... + f (n-1)]. *)
Fixpoint somme (f : nat → N) (n : nat) : N :=
  match n with
  | O => 0
  | S n' => somme f n' + f n'
  end.


(** Number of arcs whose target is [p_sommet]. *)
Definition arcs_entrants (p_sommet : N) (listes : list (list N)) : N :=
  foldr (λ liste n, N.of_nat (count_occ N.eq_dec liste p_sommet) + n) 0 listes.

(** The vertices that have an arc to [p_cible], as [arcExiste] answers. *)
Definition sources (p_cible : N) (g : Graphe) : list N :=
  filter (λ s, valeur_retour (arcExiste s p_cible g) = Some true)
         (N.of_nat <$> seq 0 (N.to_nat (m_nbSommets g))).


(** * Proofs *)

(** ** [std::find] and [erase] *)

Lemma find_None (l : list N) (x : N) : find l x = None ↔ x ∉ l.
Proof.
  induction l as [|y l IH]; simpl.
  - split; [intros _; apply not_elem_of_nil | done].
  - destruct (N.eqb_spec y x) as [->|Hne].
    + split; [done | intros H; destruct H; left].
    + rewrite not_elem_of_cons, <- IH.
      destruct (find l x); simpl; intuition congruence.
Qed.

Lemma find_Some_lookup (l : list N) (x : N) (it : nat) :
  find l x = Some it → l !! it = Some x.
Proof.
  revert it; induction l as [|y l IH]; simpl; intros it; [done|].
  destruct (N.eqb_spec y x) as [->|Hne].
  - intros [= <-]; done.
  - destruct (find l x) as [j|]; simpl; [|done].
    intros [= <-]; simpl; auto.
Qed.

Lemma find_push_back (l : list N) (x : N) : is_Some (find (l ++ [x]) x).
Proof.
  destruct (find (l ++ [x]) x) eqn:E; [eauto|].
  apply find_None in E. destruct E. apply elem_of_app; right; left.
Qed.

Lemma find_push_back_absent (l : list N) (x : N) :
  find l x = None → find (l ++ [x]) x = Some (length l).
Proof.
  induction l as [|y l IH]; simpl.
  - rewrite N.eqb_refl; done.
  - destruct (N.eqb_spec y x); [done|].
    destruct (find l x); simpl; [done|]. intros _; rewrite IH; done.
Qed.

Lemma delete_push_back (l : list N) (x : N) : delete (length l) (l ++ [x]) = l.
Proof. induction l as [|y l IH]; simpl; [done | by f_equal]. Qed.

Lemma find_erase (l : list N) (x : N) (it : nat) :
  NoDup l → find l x = Some it → find (delete it l) x = None.
Proof.
  intros Hnd; revert it; induction Hnd as [|y l Hy Hnd IH]; simpl; intros it; [done|].
  destruct (N.eqb_spec y x) as [->|Hne].
  - intros [= <-]; simpl. by apply find_None.
  - destruct (find l x) as [j|] eqn:E; simpl; [|done].
    intros [= <-]; simpl.
    destruct (N.eqb_spec y x); [done|]. rewrite (IH j); done.
Qed.

Lemma elem_of_delete (l : list N) (x : N) (it : nat) : x ∈ delete it l → x ∈ l.
Proof.
  revert it; induction l as [|y l IH]; intros [|it]; simpl; try done.
  - by right.
  - rewrite !elem_of_cons; intros [->|H]; eauto.
Qed.

Lemma NoDup_delete (l : list N) (it : nat) : NoDup l → NoDup (delete it l).
Proof.
  intros Hnd; revert it; induction Hnd as [|y l Hy Hnd IH]; intros [|it]; simpl.
  - constructor. - constructor. - done.
  - constructor; [|done]. intros H; apply Hy; eapply elem_of_delete; done.
Qed.

(** [push_back] of every element in turn copies the list. *)
Lemma copie_push_back (l v : list N) :
  fold_left (λ v x, v ++ [x]) l v = v ++ l.
Proof.
  revert v; induction l as [|x l IH]; intros v; simpl.
  - by rewrite app_nil_r.
  - rewrite IH, <- app_assoc; done.
Qed.

(** ** The contract macros *)

Ltac deplier :=
  unfold PRECONDITION, POSTCONDITION, INVARIANTS, verifieInvariant, INVARIANT,
    sommet_valide, indice, bind, ret, lire, ecrire, throw, indefini in *.

(** Runs a computation as far as the tests and lookups known from the
    hypotheses allow. *)
Ltac reduire :=
  repeat first
    [ progress simpl
    | match goal with
      | H : ?b = true |- context [?b] => rewrite H
      | H : ?b = false |- context [?b] => rewrite H
      | H : ?o = Some _ |- context [?o] => rewrite H
      | H : ?o = None |- context [?o] => rewrite H
      | H : ?r = Retour _ _ |- context [?r] => rewrite H
      | H : ?r = Leve _ _ |- context [?r] => rewrite H
      | H : ?r = Indefini |- context [?r] => rewrite H
      end ].

Lemma sommet_ltb (p n : N) : p < n → (p <? n) = true ∧ (n <=? p) = false.
Proof. intros H; split; [by apply N.ltb_lt | by apply N.leb_gt]. Qed.

Lemma sommet_leb (p n : N) : n ≤ p → (p <? n) = false ∧ (n <=? p) = true.
Proof. intros H; split; [by apply N.ltb_ge | by apply N.leb_le]. Qed.

Lemma tailles_noms (g : Graphe) (p : N) :
  tailles g → p < m_nbSommets g → is_Some (m_noms g !! N.to_nat p).
Proof. intros [H _] Hp; apply lookup_lt_is_Some_2; lia. Qed.

Lemma tailles_listes (g : Graphe) (p : N) :
  tailles g → p < m_nbSommets g → is_Some (m_listesAdj g !! N.to_nat p).
Proof. intros [_ H] Hp; apply lookup_lt_is_Some_2; lia. Qed.

Lemma tailles_hors_bornes (g : Graphe) (p : N) :
  tailles g → m_nbSommets g ≤ p → m_listesAdj g !! N.to_nat p = None.
Proof. intros [_ H] Hp; apply lookup_ge_None_2; lia. Qed.

(** ** Computations that do not write *)

Lemma pure_ret {A} (a : A) : pure (ret a).
Proof. intros g; done. Qed.

Lemma pure_lire : pure lire.
Proof. intros g; done. Qed.

Lemma pure_throw {A} (e : exception) : pure (throw (A:=A) e).
Proof. intros g; done. Qed.

Lemma pure_indefini {A} : pure (indefini (A:=A)).
Proof. intros g; done. Qed.

Lemma pure_bind {A B} (m : M A) (f : A → M B) :
  pure m → (∀ a, pure (f a)) → pure (bind m f).
Proof.
  intros Hm Hf g. unfold bind. specialize (Hm g).
  destruct (m g) as [g' a| | |]; subst; try done. apply Hf.
Qed.

Lemma pure_indice {A} (v : list A) (i : N) : pure (indice v i).
Proof. unfold indice; destruct (_ !! _); [apply pure_ret | apply pure_indefini]. Qed.

Lemma pure_PRECONDITION (expr : string) (f : M bool) :
  pure f → pure (PRECONDITION expr f).
Proof.
  intros Hf. unfold PRECONDITION. destruct contrats; [|apply pure_ret].
  apply pure_bind; [done|]. intros []; [apply pure_ret | apply pure_throw].
Qed.

Ltac prouver_pure :=
  repeat first
    [ apply pure_ret | apply pure_lire | apply pure_throw | apply pure_indefini
    | apply pure_indice | apply pure_PRECONDITION
    | apply pure_bind; [|intros ?]
    | assumption
    | match goal with
      | |- pure (if ?b then _ else _) => destruct b
      | |- pure (match ?o with Some _ => _ | None => _ end) => destruct o
      end ].

Lemma pure_sommet_valide (p_sommet : N) : pure (sommet_valide p_sommet).
Proof. unfold sommet_valide; prouver_pure. Qed.

(** ** The member functions on small graphs *)

Ltac par_calcul :=
  unfold construire_chaine, nommer, reqNom, ajouterArc, enleverArc, arcExiste,
    listerSommetsAdjacents, ordreEntreeSommet, ordreSortieSommet;
  deplier; destruct contrats; reflexivity.

Example exemple_arcExiste :
  (construire_chaine;; arcExiste 1 2) (Graphe_init 4) =
    Retour {| m_nbSommets := 4;
              m_noms := [T_defaut; T_defaut; T_defaut; T_defaut];
              m_listesAdj := [[1]; [2]; [3]; []] |} true.
Proof. par_calcul. Qed.

Example exemple_ordreEntreeSommet :
  (construire_chaine;; ajouterArc 0 2;; ordreEntreeSommet 2) (Graphe_init 4) =
    Retour {| m_nbSommets := 4;
              m_noms := [T_defaut; T_defaut; T_defaut; T_defaut];
              m_listesAdj := [[1; 2]; [2]; [3]; []] |} 2.
Proof. par_calcul. Qed.

Example exemple_enleverArc :
  (construire_chaine;; enleverArc 1 2;; listerSommetsAdjacents 1)
    (Graphe_init 4) =
    Retour {| m_nbSommets := 4;
              m_noms := [T_defaut; T_defaut; T_defaut; T_defaut];
              m_listesAdj := [[1]; []; [3]; []] |} [].
Proof. par_calcul. Qed.

Example exemple_enleverArc_absent :
  enleverArc 0 1 (Graphe_init 2) =
    Leve (Graphe_init 2)
         (if contrats then PreconditionException "arcExiste(p_source, p_cible)"
          else logic_error "enlever: l'arc est inexistant").
Proof. par_calcul. Qed.

Example exemple_nommer (p_nom : T) :
  (nommer 1 p_nom;; reqNom 1) (Graphe_init 2) =
    Retour {| m_nbSommets := 2;
              m_noms := [T_defaut; p_nom];
              m_listesAdj := [[]; []] |} p_nom.
Proof. par_calcul. Qed.

(** ** The queries *)

Lemma arcExiste_valide (g : Graphe) (p_source p_cible : N) :
  p_source < m_nbSommets g → p_cible < m_nbSommets g →
  arcExiste p_source p_cible g =
    match m_listesAdj g !! N.to_nat p_source with
    | Some liste =>
        Retour g (match find liste p_cible with Some _ => true | None => false end)
    | None => Indefini
    end.
Proof.
  intros [Hs1 Hs2]%sommet_ltb [Hc1 Hc2]%sommet_ltb.
  unfold arcExiste; deplier.
  destruct contrats; reduire; by destruct (_ !! _).
Qed.

Lemma arcExiste_invalide (g : Graphe) (p_source p_cible : N) :
  m_nbSommets g ≤ p_source ∨ m_nbSommets g ≤ p_cible →
  ∃ e, arcExiste p_source p_cible g = Leve g e ∧ InvalidVertex e.
Proof.
  intros H. unfold arcExiste; deplier.
  destruct (N.lt_ge_cases p_source (m_nbSommets g)) as [Hs|Hs].
  - destruct H as [H|[Hc1 Hc2]%sommet_leb]; [lia|].
    apply sommet_ltb in Hs as [Hs1 Hs2].
    destruct contrats; reduire; eexists; (split; [reflexivity | simpl; auto 10]).
  - apply sommet_leb in Hs as [Hs1 Hs2].
    destruct contrats; reduire; eexists; (split; [reflexivity | simpl; auto 10]).
Qed.

Lemma arcExiste_pure (p_source p_cible : N) : pure (arcExiste p_source p_cible).
Proof. unfold arcExiste; pose proof pure_sommet_valide; prouver_pure. Qed.

Lemma reqNom_valide (g : Graphe) (p_sommet : N) :
  p_sommet < m_nbSommets g →
  reqNom p_sommet g =
    match m_noms g !! N.to_nat p_sommet with
    | Some nom => Retour g nom
    | None => Indefini
    end.
Proof.
  intros [H1 H2]%sommet_ltb. unfold reqNom; deplier.
  destruct contrats; reduire; by destruct (_ !! _).
Qed.

Lemma reqNom_invalide (g : Graphe) (p_sommet : N) :
  m_nbSommets g ≤ p_sommet →
  ∃ e, reqNom p_sommet g = Leve g e ∧ InvalidVertex e.
Proof.
  intros [H1 H2]%sommet_leb. unfold reqNom; deplier.
  destruct contrats; reduire; eexists; (split; [reflexivity | simpl; auto 10]).
Qed.

Lemma reqNom_pure (p_sommet : N) : pure (reqNom p_sommet).
Proof. unfold reqNom; pose proof pure_sommet_valide; prouver_pure. Qed.

Lemma reqNbSommets_pure : pure reqNbSommets.
Proof. unfold reqNbSommets; prouver_pure. Qed.

Lemma listerSommetsAdjacents_valide (g : Graphe) (p_sommet : N) :
  p_sommet < m_nbSommets g →
  listerSommetsAdjacents p_sommet g =
    match m_listesAdj g !! N.to_nat p_sommet with
    | Some liste => Retour g liste
    | None => Indefini
    end.
Proof.
  intros [H1 H2]%sommet_ltb. unfold listerSommetsAdjacents; deplier.
  destruct contrats; reduire; destruct (_ !! _); reduire;
    by rewrite ?copie_push_back.
Qed.

Lemma listerSommetsAdjacents_invalide (g : Graphe) (p_sommet : N) :
  m_nbSommets g ≤ p_sommet →
  ∃ e, listerSommetsAdjacents p_sommet g = Leve g e ∧ InvalidVertex e.
Proof.
  intros [H1 H2]%sommet_leb. unfold listerSommetsAdjacents; deplier.
  destruct contrats; reduire; eexists; (split; [reflexivity | simpl; auto 10]).
Qed.

Lemma listerSommetsAdjacents_pure (p_sommet : N) :
  pure (listerSommetsAdjacents p_sommet).
Proof.
  unfold listerSommetsAdjacents; pose proof pure_sommet_valide; prouver_pure.
Qed.

Lemma ordreSortieSommet_valide (g : Graphe) (p_sommet : N) :
  p_sommet < m_nbSommets g →
  ordreSortieSommet p_sommet g =
    match m_listesAdj g !! N.to_nat p_sommet with
    | Some liste => Retour g (vers_unsigned (N.of_nat (length liste)))
    | None => Indefini
    end.
Proof.
  intros [H1 H2]%sommet_ltb. unfold ordreSortieSommet; deplier.
  destruct contrats; reduire; by destruct (_ !! _).
Qed.

Lemma ordreSortieSommet_invalide (g : Graphe) (p_sommet : N) :
  m_nbSommets g ≤ p_sommet →
  ∃ e, ordreSortieSommet p_sommet g = Leve g e ∧ InvalidVertex e.
Proof.
  intros [H1 H2]%sommet_leb. unfold ordreSortieSommet; deplier.
  destruct contrats; reduire; eexists; (split; [reflexivity | simpl; auto 10]).
Qed.

Lemma ordreSortieSommet_pure (p_sommet : N) : pure (ordreSortieSommet p_sommet).
Proof. unfold ordreSortieSommet; pose proof pure_sommet_valide; prouver_pure. Qed.

Lemma boucle_sommets_pure (tests : nat) (p_sommet i cpt : N) :
  pure (boucle_sommets tests p_sommet i cpt).
Proof.
  revert i cpt; induction tests as [|tests IH]; intros i cpt; [by intros g|].
  simpl; prouver_pure. apply IH.
Qed.

Lemma ordreEntreeSommet_invalide (g : Graphe) (p_sommet : N) :
  m_nbSommets g ≤ p_sommet →
  ∃ e, ordreEntreeSommet p_sommet g = Leve g e ∧ InvalidVertex e.
Proof.
  intros [H1 H2]%sommet_leb. unfold ordreEntreeSommet; deplier.
  destruct contrats; reduire; eexists; (split; [reflexivity | simpl; auto 10]).
Qed.

Lemma ordreEntreeSommet_pure (p_sommet : N) : pure (ordreEntreeSommet p_sommet).
Proof.
  unfold ordreEntreeSommet; pose proof pure_sommet_valide; prouver_pure.
  apply boucle_sommets_pure.
Qed.

(** ** The mutators *)

Lemma tailles_eqb (g : Graphe) :
  tailles g →
  (N.of_nat (length (m_noms g)) =? m_nbSommets g) = true ∧
  (N.of_nat (length (m_listesAdj g)) =? m_nbSommets g) = true.
Proof. intros [H1 H2]; split; by apply N.eqb_eq. Qed.

Lemma nommer_valide (g : Graphe) (p_sommet : N) (p_nom : T) :
  tailles g → p_sommet < m_nbSommets g →
  nommer p_sommet p_nom g = Retour (maj_nom g p_sommet p_nom) tt.
Proof.
  intros Ht Hp. destruct (tailles_noms g p_sommet Ht Hp) as [nom Hnom].
  apply tailles_eqb in Ht as [Hn Hl]. apply sommet_ltb in Hp as [H1 H2].
  unfold nommer, maj_nom; deplier.
  destruct contrats; reduire; rewrite ?length_insert; reduire; done.
Qed.

Lemma nommer_invalide (g : Graphe) (p_sommet : N) (p_nom : T) :
  m_nbSommets g ≤ p_sommet →
  ∃ e, nommer p_sommet p_nom g = Leve g e ∧ InvalidVertex e.
Proof.
  intros [H1 H2]%sommet_leb. unfold nommer; deplier.
  destruct contrats; reduire; eexists; (split; [reflexivity | simpl; auto 10]).
Qed.

Lemma ajouterArc_valide (g : Graphe) (p_source p_cible : N) (liste : list N) :
  tailles g → p_source < m_nbSommets g → p_cible < m_nbSommets g →
  m_listesAdj g !! N.to_nat p_source = Some liste →
  find liste p_cible = None →
  ajouterArc p_source p_cible g =
    Retour (maj_liste g p_source (liste ++ [p_cible])) tt.
Proof.
  intros Ht Hs Hc Hliste Hfind.
  assert (Hins : <[N.to_nat p_source := liste ++ [p_cible]]> (m_listesAdj g)
                   !! N.to_nat p_source = Some (liste ++ [p_cible])).
  { apply list_lookup_insert_eq. by eapply lookup_lt_Some. }
  pose proof (find_push_back_absent _ _ Hfind) as Hpush.
  pose proof (arcExiste_valide g p_source p_cible Hs Hc) as Hex.
  pose proof (arcExiste_valide (maj_liste g p_source (liste ++ [p_cible]))
                p_source p_cible Hs Hc) as Hex'.
  unfold maj_liste in *; simpl in Hex'. rewrite Hliste, Hfind in Hex.
  rewrite Hins, Hpush in Hex'.
  apply tailles_eqb in Ht as [Hn Hl].
  apply sommet_ltb in Hs as [Hs1 Hs2]. apply sommet_ltb in Hc as [Hc1 Hc2].
  unfold ajouterArc; deplier.
  destruct contrats; reduire; rewrite ?length_insert; reduire; done.
Qed.

Lemma ajouterArc_doublon (g : Graphe) (p_source p_cible : N) :
  p_source < m_nbSommets g → p_cible < m_nbSommets g →
  arcExiste p_source p_cible g = Retour g true →
  ajouterArc p_source p_cible g =
    Leve g (if contrats
            then PreconditionException "!arcExiste(p_source, p_cible)"
            else logic_error "ajouterArc: l'arc existe déjà").
Proof.
  intros [Hs1 Hs2]%sommet_ltb [Hc1 Hc2]%sommet_ltb Hex.
  unfold ajouterArc; deplier. destruct contrats; reduire; done.
Qed.

Lemma ajouterArc_invalide (g : Graphe) (p_source p_cible : N) :
  m_nbSommets g ≤ p_source ∨ m_nbSommets g ≤ p_cible →
  ∃ e, ajouterArc p_source p_cible g = Leve g e ∧ InvalidVertex e.
Proof.
  intros H. unfold ajouterArc; deplier.
  destruct (N.lt_ge_cases p_source (m_nbSommets g)) as [Hs|Hs].
  - destruct H as [H|[Hc1 Hc2]%sommet_leb]; [lia|].
    apply sommet_ltb in Hs as [Hs1 Hs2].
    destruct contrats; reduire; eexists; (split; [reflexivity | simpl; auto 10]).
  - apply sommet_leb in Hs as [Hs1 Hs2].
    destruct contrats; reduire; eexists; (split; [reflexivity | simpl; auto 10]).
Qed.

Lemma enleverArc_valide (g : Graphe) (p_source p_cible : N) (liste : list N)
    (it : nat) :
  tailles g → p_source < m_nbSommets g → p_cible < m_nbSommets g →
  m_listesAdj g !! N.to_nat p_source = Some liste →
  NoDup liste → find liste p_cible = Some it →
  enleverArc p_source p_cible g =
    Retour (maj_liste g p_source (delete it liste)) tt.
Proof.
  intros Ht Hs Hc Hliste Hnd Hfind.
  assert (Hins : <[N.to_nat p_source := delete it liste]> (m_listesAdj g)
                   !! N.to_nat p_source = Some (delete it liste)).
  { apply list_lookup_insert_eq. by eapply lookup_lt_Some. }
  pose proof (find_erase _ _ _ Hnd Hfind) as Herase.
  pose proof (arcExiste_valide g p_source p_cible Hs Hc) as Hex.
  pose proof (arcExiste_valide (maj_liste g p_source (delete it liste))
                p_source p_cible Hs Hc) as Hex'.
  unfold maj_liste in *; simpl in Hex'. rewrite Hliste, Hfind in Hex.
  rewrite Hins, Herase in Hex'.
  apply tailles_eqb in Ht as [Hn Hl].
  unfold enleverArc; deplier.
  destruct contrats; reduire; rewrite ?length_insert; reduire; done.
Qed.

Lemma enleverArc_absent (g : Graphe) (p_source p_cible : N) (liste : list N) :
  p_source < m_nbSommets g →
  m_listesAdj g !! N.to_nat p_source = Some liste →
  find liste p_cible = None →
  ∃ e, enleverArc p_source p_cible g = Leve g e ∧
       (EdgeNotFound e ∨ InvalidVertex e).
Proof.
  intros Hs Hliste Hfind. unfold enleverArc; deplier.
  destruct (N.lt_ge_cases p_cible (m_nbSommets g)) as [Hc|Hc].
  - pose proof (arcExiste_valide g p_source p_cible Hs Hc) as Hex.
    rewrite Hliste, Hfind in Hex.
    destruct contrats; reduire; eexists;
      (split; [reflexivity | left; unfold EdgeNotFound; auto]).
  - destruct (arcExiste_invalide g p_source p_cible) as (e & He & Hinv); [auto|].
    destruct contrats; reduire; eexists; split; try reflexivity; auto.
    left; unfold EdgeNotFound; auto.
Qed.

Lemma enleverArc_source_invalide (g : Graphe) (p_source p_cible : N) :
  tailles g → m_nbSommets g ≤ p_source →
  enleverArc p_source p_cible g =
    if contrats then Leve g (PreconditionException "p_source < m_nbSommets")
    else Indefini.
Proof.
  intros Ht Hs. pose proof (tailles_hors_bornes g p_source Ht Hs) as Hnone.
  apply sommet_leb in Hs as [Hs1 Hs2].
  unfold enleverArc, arcExiste; deplier. destruct contrats; reduire; done.
Qed.

(** ** The invariants hold in every accessible state *)

Lemma bien_forme_init (p_nbSommets : N) : bien_forme (Graphe_init p_nbSommets).
Proof.
  repeat split; simpl.
  - rewrite length_replicate; lia.
  - rewrite length_replicate; lia.
  - apply Forall_replicate; constructor.
  - apply Forall_replicate; constructor.
Qed.

Lemma bien_forme_maj_nom (g : Graphe) (p_sommet : N) (p_nom : T) :
  bien_forme g → bien_forme (maj_nom g p_sommet p_nom).
Proof.
  intros ([Hn Hl] & Hnd & Hc). repeat split; simpl; try done.
  by rewrite length_insert.
Qed.

Lemma bien_forme_maj_liste (g : Graphe) (p_source : N) (liste : list N) :
  bien_forme g → NoDup liste → Forall (λ cible, cible < m_nbSommets g) liste →
  bien_forme (maj_liste g p_source liste).
Proof.
  intros ([Hn Hl] & Hnd & Hc) Hliste Hcibles. repeat split; simpl; try done.
  - by rewrite length_insert.
  - by apply Forall_insert.
  - by apply Forall_insert.
Qed.

Lemma pure_etat_apres {A} (m : M A) (g g' : Graphe) :
  pure m → etat_apres (oublier (m g)) = Some g' → g' = g.
Proof.
  intros Hm. specialize (Hm g).
  destruct (m g); simpl; intros [= <-] || intros [=]; done.
Qed.

Lemma find_Some_elem_of (l : list N) (x : N) (it : nat) :
  find l x = Some it → x ∈ l.
Proof. intros H%find_Some_lookup. by eapply list_elem_of_lookup_2. Qed.

(** Every outcome of the three mutators in a well-formed state. *)

Lemma nommer_issue (g : Graphe) (p_sommet : N) (p_nom : T) :
  bien_forme g →
  (∃ e, nommer p_sommet p_nom g = Leve g e) ∨
  (p_sommet < m_nbSommets g ∧
   nommer p_sommet p_nom g = Retour (maj_nom g p_sommet p_nom) tt).
Proof.
  intros Hbf. destruct (N.lt_ge_cases p_sommet (m_nbSommets g)) as [Hp|Hp].
  - right. split; [done|]. apply nommer_valide; [apply Hbf | done].
  - left. destruct (nommer_invalide g p_sommet p_nom Hp) as (e & He & _); eauto.
Qed.

Lemma ajouterArc_issue (g : Graphe) (p_source p_cible : N) :
  bien_forme g →
  (∃ e, ajouterArc p_source p_cible g = Leve g e) ∨
  (∃ liste,
     p_source < m_nbSommets g ∧ p_cible < m_nbSommets g ∧
     m_listesAdj g !! N.to_nat p_source = Some liste ∧
     find liste p_cible = None ∧
     ajouterArc p_source p_cible g =
       Retour (maj_liste g p_source (liste ++ [p_cible])) tt).
Proof.
  intros Hbf.
  destruct (N.lt_ge_cases p_source (m_nbSommets g)) as [Hs|Hs];
    [destruct (N.lt_ge_cases p_cible (m_nbSommets g)) as [Hc|Hc]|].
  - destruct (tailles_listes g p_source) as [liste Hliste]; [apply Hbf | done |].
    pose proof (arcExiste_valide g p_source p_cible Hs Hc) as Hex.
    rewrite Hliste in Hex. destruct (find liste p_cible) as [it|] eqn:Hfind.
    + left. rewrite ajouterArc_doublon by done. eauto.
    + right. exists liste. repeat (split; [done|]).
      apply ajouterArc_valide; done || apply Hbf.
  - left. destruct (ajouterArc_invalide g p_source p_cible) as (e & He & _); eauto.
  - left. destruct (ajouterArc_invalide g p_source p_cible) as (e & He & _); eauto.
Qed.

Lemma enleverArc_issue (g : Graphe) (p_source p_cible : N) :
  bien_forme g →
  enleverArc p_source p_cible g = Indefini ∨
  (∃ e, enleverArc p_source p_cible g = Leve g e) ∨
  (∃ liste it,
     p_source < m_nbSommets g ∧ p_cible < m_nbSommets g ∧
     m_listesAdj g !! N.to_nat p_source = Some liste ∧
     find liste p_cible = Some it ∧
     enleverArc p_source p_cible g =
       Retour (maj_liste g p_source (delete it liste)) tt).
Proof.
  intros (Ht & Hnd & Hcv).
  destruct (N.lt_ge_cases p_source (m_nbSommets g)) as [Hs|Hs].
  - destruct (tailles_listes g p_source) as [liste Hliste]; [done | done |].
    pose proof (Forall_lookup_1 _ _ _ _ Hnd Hliste) as Hnd'.
    pose proof (Forall_lookup_1 _ _ _ _ Hcv Hliste) as Hcv'. simpl in Hcv'.
    destruct (find liste p_cible) as [it|] eqn:Hfind.
    + assert (p_cible < m_nbSommets g) as Hc.
      { rewrite Forall_forall in Hcv'. apply Hcv'. by eapply find_Some_elem_of. }
      right; right. exists liste, it. repeat (split; [done|]).
      by apply enleverArc_valide.
    + right; left.
      destruct (enleverArc_absent g p_source p_cible liste) as (e & He & _);
        eauto.
  - rewrite enleverArc_source_invalide by done.
    destruct contrats; [right; left; eauto | by left].
Qed.

Lemma bien_forme_nommer (g g' : Graphe) (p_sommet : N) (p_nom : T) :
  bien_forme g → etat_apres (nommer p_sommet p_nom g) = Some g' → bien_forme g'.
Proof.
  intros Hbf. destruct (nommer_issue g p_sommet p_nom Hbf) as [[e ->]|[_ ->]].
  - by intros [= <-].
  - intros [= <-]. by apply bien_forme_maj_nom.
Qed.

Lemma bien_forme_ajouterArc (g g' : Graphe) (p_source p_cible : N) :
  bien_forme g →
  etat_apres (ajouterArc p_source p_cible g) = Some g' → bien_forme g'.
Proof.
  intros Hbf.
  destruct (ajouterArc_issue g p_source p_cible Hbf)
    as [[e ->]|(liste & Hs & Hc & Hliste & Hfind & ->)].
  - by intros [= <-].
  - intros [= <-]. pose proof Hbf as (Ht & Hnd & Hcv).
    apply bien_forme_maj_liste; [done | |].
    + apply NoDup_app; repeat split.
      * by eapply Forall_lookup_1.
      * intros x Hx [->|[]%elem_of_nil]%elem_of_cons. by apply find_None in Hfind.
      * apply NoDup_singleton.
    + apply Forall_app; split; [by eapply (Forall_lookup_1 _ _ _ _ Hcv)|].
      by repeat constructor.
Qed.

Lemma bien_forme_enleverArc (g g' : Graphe) (p_source p_cible : N) :
  bien_forme g →
  etat_apres (enleverArc p_source p_cible g) = Some g' → bien_forme g'.
Proof.
  intros Hbf.
  destruct (enleverArc_issue g p_source p_cible Hbf)
    as [->|[[e ->]|(liste & it & Hs & Hc & Hliste & Hfind & ->)]].
  - done.
  - by intros [= <-].
  - intros [= <-]. pose proof Hbf as (Ht & Hnd & Hcv).
    apply bien_forme_maj_liste; [done | |].
    + apply NoDup_delete. by eapply Forall_lookup_1.
    + apply Forall_delete. by eapply (Forall_lookup_1 _ _ _ _ Hcv).
Qed.

Lemma etat_apres_oublier {A} (r : issue A) :
  etat_apres (oublier r) = etat_apres r.
Proof. by destruct r. Qed.

Lemma bien_forme_executer (g g' : Graphe) (a : appel) :
  bien_forme g → etat_apres (executer a g) = Some g' → bien_forme g'.
Proof.
  intros Hbf. destruct a; cbv beta iota delta [executer].
  - rewrite etat_apres_oublier. by apply bien_forme_nommer.
  - rewrite etat_apres_oublier. by apply bien_forme_ajouterArc.
  - rewrite etat_apres_oublier. by apply bien_forme_enleverArc.
  - intros ->%pure_etat_apres; [done | apply reqNom_pure].
  - intros ->%pure_etat_apres; [done | apply arcExiste_pure].
  - intros ->%pure_etat_apres; [done | apply reqNbSommets_pure].
  - intros ->%pure_etat_apres; [done | apply listerSommetsAdjacents_pure].
  - intros ->%pure_etat_apres; [done | apply ordreEntreeSommet_pure].
  - intros ->%pure_etat_apres; [done | apply ordreSortieSommet_pure].
  - done.
  - done.
  - done.
  - done.
Qed.

Lemma accessible_bien_forme (g : Graphe) : accessible g → bien_forme g.
Proof.
  induction 1 as [n | g g' a _ IH Hstep].
  - apply bien_forme_init.
  - by eapply bien_forme_executer.
Qed.

(** * The verified properties *)

Lemma pure_leve {A} (m : M A) (g g' : Graphe) (e : exception) :
  pure m → oublier (m g) = Leve g' e → g' = g.
Proof.
  intros Hm. specialize (Hm g). destruct (m g); simpl; intros [=]; congruence.
Qed.

(** C2. A call that throws leaves the object as it was before the call: in
    every accessible state [g] and for every call [a] with any arguments, if
    [a] ends with an exception then the object at that point is [g] itself
    (same labels, same adjacency lists). *)
Theorem echec_sans_effet (g g' : Graphe) (a : appel) (e : exception) :
  accessible g → executer a g = Leve g' e → g' = g.
Proof.
  intros Hbf%accessible_bien_forme. destruct a; cbv beta iota delta [executer].
  - destruct (nommer_issue g p_sommet p_nom Hbf) as [[e' ->]|[_ ->]];
      simpl; congruence.
  - destruct (ajouterArc_issue g p_source p_cible Hbf)
      as [[e' ->]|(liste & _ & _ & _ & _ & ->)]; simpl; congruence.
  - destruct (enleverArc_issue g p_source p_cible Hbf)
      as [->|[[e' ->]|(liste & it & _ & _ & _ & _ & ->)]]; simpl; congruence.
  - apply pure_leve, reqNom_pure.
  - apply pure_leve, arcExiste_pure.
  - apply pure_leve, reqNbSommets_pure.
  - apply pure_leve, listerSommetsAdjacents_pure.
  - apply pure_leve, ordreEntreeSommet_pure.
  - apply pure_leve, ordreSortieSommet_pure.
  - done.
  - done.
  - done.
  - done.
Qed.

(** C4. Adding an arc that exists already fails with the duplicate-arc error
    and changes no adjacency list: for valid [p_source] and [p_cible] with
    [arcExiste] true, [ajouterArc] throws an exception of kind [DuplicateEdge]
    and the adjacency lists at that point are those before the call. *)
Theorem ajouterArc_arc_existant (g : Graphe) (p_source p_cible : N) :
  p_source < m_nbSommets g → p_cible < m_nbSommets g →
  arcExiste p_source p_cible g = Retour g true →
  ∃ g' e, ajouterArc p_source p_cible g = Leve g' e ∧ DuplicateEdge e ∧
          m_listesAdj g' = m_listesAdj g.
Proof.
  intros Hs Hc Hex. eexists g, _. split; [by apply ajouterArc_doublon|].
  split; [|done]. unfold DuplicateEdge. destruct contrats; auto.
Qed.

(** C5. For valid [p_source] and [p_cible] without an arc between them, in an
    accessible state: [ajouterArc] returns, [arcExiste] is then true,
    [enleverArc] then returns, and [arcExiste] is false again. *)
Theorem ajouterArc_puis_enleverArc (g : Graphe) (p_source p_cible : N) :
  accessible g →
  p_source < m_nbSommets g → p_cible < m_nbSommets g →
  arcExiste p_source p_cible g = Retour g false →
  ∃ g1 g2,
    ajouterArc p_source p_cible g = Retour g1 tt ∧
    arcExiste p_source p_cible g1 = Retour g1 true ∧
    enleverArc p_source p_cible g1 = Retour g2 tt ∧
    arcExiste p_source p_cible g2 = Retour g2 false.
Proof.
  intros Hacc Hs Hc Hex. pose proof (accessible_bien_forme g Hacc) as Hbf.
  destruct (ajouterArc_issue g p_source p_cible Hbf)
    as [[e He]|(liste & _ & _ & Hliste & Hfind & Hadd)].
  { rewrite arcExiste_valide in Hex by done.
    destruct (tailles_listes g p_source) as [liste Hliste]; [apply Hbf | done |].
    rewrite Hliste in Hex.
    rewrite (ajouterArc_valide g _ _ liste) in He; [done | apply Hbf | done..|].
    by destruct (find liste p_cible). }
  set (g1 := maj_liste g p_source (liste ++ [p_cible])) in *.
  assert (accessible g1) as Hacc1.
  { apply (acc_appel g g1 (a_ajouterArc p_source p_cible)); [done|].
    simpl. by rewrite Hadd. }
  pose proof (accessible_bien_forme g1 Hacc1) as (Ht1 & Hnd1 & _).
  assert (m_listesAdj g1 !! N.to_nat p_source = Some (liste ++ [p_cible]))
    as Hliste1.
  { apply list_lookup_insert_eq. by eapply lookup_lt_Some. }
  pose proof (find_push_back_absent _ _ Hfind) as Hfind1.
  exists g1, (maj_liste g1 p_source (delete (length liste) (liste ++ [p_cible]))).
  split; [done|]. split; [|split].
  - rewrite arcExiste_valide by done. by rewrite Hliste1, Hfind1.
  - apply enleverArc_valide; try done. by eapply Forall_lookup_1.
  - rewrite arcExiste_valide by done. simpl.
    rewrite list_lookup_insert_eq, delete_push_back, Hfind; [done|].
    rewrite length_insert. by eapply lookup_lt_Some.
Qed.

(** C6. For a valid vertex [p_sommet] of an accessible state and any label
    [p_nom], [nommer] returns and [reqNom] then returns [p_nom]. *)
Theorem nommer_puis_reqNom (g : Graphe) (p_sommet : N) (p_nom : T) :
  accessible g → p_sommet < m_nbSommets g →
  ∃ g1, nommer p_sommet p_nom g = Retour g1 tt ∧
        reqNom p_sommet g1 = Retour g1 p_nom.
Proof.
  intros (Ht & _)%accessible_bien_forme Hp.
  exists (maj_nom g p_sommet p_nom). split; [by apply nommer_valide|].
  rewrite reqNom_valide by done. simpl.
  rewrite list_lookup_insert_eq; [done|]. destruct Ht; lia.
Qed.

(** C9. For a valid vertex [p_sommet] of an accessible state, [nommer] returns
    and writes nothing but the label of [p_sommet]: the number of vertices,
    every adjacency list and the label of every other vertex are as before. *)
Theorem nommer_cadre (g : Graphe) (p_sommet : N) (p_nom : T) :
  accessible g → p_sommet < m_nbSommets g →
  ∃ g1, nommer p_sommet p_nom g = Retour g1 tt ∧
        m_nbSommets g1 = m_nbSommets g ∧
        m_listesAdj g1 = m_listesAdj g ∧
        length (m_noms g1) = length (m_noms g) ∧
        ∀ autre, autre ≠ p_sommet →
          m_noms g1 !! N.to_nat autre = m_noms g !! N.to_nat autre.
Proof.
  intros (Ht & _)%accessible_bien_forme Hp.
  exists (maj_nom g p_sommet p_nom). split; [by apply nommer_valide|].
  simpl. repeat split; [apply length_insert|].
  intros autre Hne. apply list_lookup_insert_ne. lia.
Qed.

(** C10. In every accessible state, that is after the constructor and after
    any sequence of calls, every target stored in an adjacency list is a
    vertex id: it is smaller than the number of vertices. *)
Theorem cibles_valides_accessible (g : Graphe) (s : nat) (liste : list N)
    (cible : N) :
  accessible g → m_listesAdj g !! s = Some liste → cible ∈ liste →
  cible < m_nbSommets g.
Proof.
  intros (_ & _ & Hcv)%accessible_bien_forme Hliste Hcible.
  pose proof (Forall_lookup_1 _ _ _ _ Hcv Hliste) as H.
  rewrite Forall_forall in H. by apply H.
Qed.

(** ** Degrees *)

Lemma vers_unsigned_petit (x : N) : x ≤ UINT_MAX → vers_unsigned x = x.
Proof. intros H. unfold vers_unsigned. apply N.mod_small. lia. Qed.

Lemma vers_unsigned_succ (c : N) :
  vers_unsigned (vers_unsigned c + 1) = vers_unsigned (c + 1).
Proof. unfold vers_unsigned. by rewrite N.Div0.add_mod_idemp_l. Qed.

(** An adjacency list without duplicates whose targets are vertex ids is no
    longer than the number of vertices. *)
Lemma longueur_bornee (liste : list N) (n : N) :
  NoDup liste → Forall (λ cible, cible < n) liste →
  N.of_nat (length liste) ≤ n.
Proof.
  intros Hnd Hcv.
  assert (liste ⊆+ N.of_nat <$> seq 0 (N.to_nat n)) as Hsub.
  { apply NoDup_submseteq; [done|]. intros x Hx.
    rewrite Forall_forall in Hcv. specialize (Hcv x Hx).
    apply list_elem_of_fmap. exists (N.to_nat x). split; [lia|].
    apply elem_of_seq. lia. }
  apply submseteq_length in Hsub. rewrite length_fmap, length_seq in Hsub. lia.
Qed.

Lemma compte_liste_spec (p_sommet : N) (liste : list N) (c : N) :
  compte_liste p_sommet liste (vers_unsigned c) =
    vers_unsigned (c + N.of_nat (count_occ N.eq_dec liste p_sommet)).
Proof.
  unfold compte_liste. revert c; induction liste as [|x liste IH]; intros c; simpl.
  - by rewrite N.add_0_r.
  - destruct (N.eqb_spec x p_sommet) as [->|Hne]; destruct (N.eq_dec _ _); try done.
    rewrite vers_unsigned_succ, IH. f_equal. lia.
Qed.

Lemma boucle_sommets_retour (g : Graphe) (p_sommet : N) :
  tailles g → m_nbSommets g ≤ UINT_MAX →
  ∀ (tests k : nat) (c : N),
    (k ≤ N.to_nat (m_nbSommets g))%nat →
    (N.to_nat (m_nbSommets g) - k < tests)%nat →
    boucle_sommets tests p_sommet (N.of_nat k) (vers_unsigned c) g =
      Retour g (vers_unsigned
                  (c + arcs_entrants p_sommet (drop k (m_listesAdj g)))).
Proof.
  intros [_ Hl] Hmax. induction tests as [|tests IH]; intros k c Hk Htests; [lia|].
  simpl; deplier. destruct (N.ltb_spec (N.of_nat k) (m_nbSommets g)) as [Hlt|Hge].
  - rewrite Nat2N.id.
    destruct (lookup_lt_is_Some_2 (m_listesAdj g) k) as [liste Hliste]; [lia|].
    rewrite Hliste; simpl. rewrite compte_liste_spec.
    replace (vers_unsigned (N.of_nat k + 1)) with (N.of_nat (S k))
      by (rewrite vers_unsigned_petit; lia).
    rewrite IH by lia. rewrite (drop_S _ _ _ Hliste); simpl.
    do 2 f_equal. lia.
  - rewrite drop_ge by lia. simpl. by rewrite N.add_0_r.
Qed.


Lemma ordreEntreeSommet_valide (g : Graphe) (p_sommet : N) :
  tailles g → m_nbSommets g ≤ UINT_MAX → p_sommet < m_nbSommets g →
  ordreEntreeSommet p_sommet g =
    Retour g (vers_unsigned (arcs_entrants p_sommet (m_listesAdj g))).
Proof.
  intros Ht Hmax Hp.
  pose proof (boucle_sommets_retour g p_sommet Ht Hmax
                (S (N.to_nat (m_nbSommets g))) 0 0) as Hboucle.
  rewrite drop_0 in Hboucle. change (vers_unsigned 0) with 0 in Hboucle.
  change (N.of_nat 0) with 0 in Hboucle. rewrite N.add_0_l in Hboucle.
  specialize (Hboucle ltac:(lia) ltac:(lia)).
  apply sommet_ltb in Hp as [H1 H2].
  unfold ordreEntreeSommet; deplier.
  destruct contrats; rewrite ?H1; cbv beta iota; rewrite H2; exact Hboucle.
Qed.

Lemma arcs_entrants_borne (p_sommet : N) (listes : list (list N)) :
  Forall NoDup listes →
  arcs_entrants p_sommet listes ≤ N.of_nat (length listes).
Proof.
  induction 1 as [|liste listes Hnd _ IH]; simpl; [done|].
  apply NoDup_ListNoDup in Hnd.
  pose proof (proj1 (NoDup_count_occ N.eq_dec liste) Hnd p_sommet). lia.
Qed.

Lemma somme_ext (f h : nat → N) (n : nat) :
  (∀ k, (k < n)%nat → f k = h k) → somme f n = somme h n.
Proof.
  induction n as [|n IH]; intros H; simpl; [done|].
  rewrite IH, H by (intros; try apply H; lia). done.
Qed.


Lemma somme_debut (f : nat → N) (n : nat) :
  somme f (S n) = f O + somme (λ k, f (S k)) n.
Proof. induction n as [|n IH]; simpl in *; [lia|]. rewrite IH. lia. Qed.








(** ** Calls with an id that is not a vertex *)

(** X20. The member functions that test their arguments throw when one of
    the ids is not a vertex, with the contract macros active or not, and
    leave the object unchanged; [enleverArc] only through the precondition of
    [arcExiste], when the macros are active. *)
Lemma sommet_invalide_exception (g : Graphe) (p_sommet autre : N) (p_nom : T) :
  m_nbSommets g ≤ p_sommet →
  (∃ e, nommer p_sommet p_nom g = Leve g e ∧ InvalidVertex e) ∧
  (∃ e, reqNom p_sommet g = Leve g e ∧ InvalidVertex e) ∧
  (∃ e, arcExiste p_sommet autre g = Leve g e ∧ InvalidVertex e) ∧
  (∃ e, arcExiste autre p_sommet g = Leve g e ∧ InvalidVertex e) ∧
  (∃ e, ajouterArc p_sommet autre g = Leve g e ∧ InvalidVertex e) ∧
  (∃ e, ajouterArc autre p_sommet g = Leve g e ∧ InvalidVertex e) ∧
  (∃ e, listerSommetsAdjacents p_sommet g = Leve g e ∧ InvalidVertex e) ∧
  (∃ e, ordreEntreeSommet p_sommet g = Leve g e ∧ InvalidVertex e) ∧
  (∃ e, ordreSortieSommet p_sommet g = Leve g e ∧ InvalidVertex e).
Proof.
  intros Hp. repeat split.
  - by apply nommer_invalide.
  - by apply reqNom_invalide.
  - apply arcExiste_invalide; auto.
  - apply arcExiste_invalide; auto.
  - apply ajouterArc_invalide; auto.
  - apply ajouterArc_invalide; auto.
  - by apply listerSommetsAdjacents_invalide.
  - by apply ordreEntreeSommet_invalide.
  - by apply ordreSortieSommet_invalide.
Qed.

(** ** The example graph *)

Lemma construire_chaine_retour :
  construire_chaine (Graphe_init 4) =
    Retour {| m_nbSommets := 4;
              m_noms := [T_defaut; T_defaut; T_defaut; T_defaut];
              m_listesAdj := [[1]; [2]; [3]; []] |} tt.
Proof. par_calcul. Qed.

(** C1. On the graph with 4 vertices and the arcs 0->1, 1->2, 2->3,
    [parcoursProfondeur 0] does not return [0; 1; 2; 3]: the body of the
    function is empty and the call has undefined behaviour. *)
Theorem parcoursProfondeur_chaine :
  (construire_chaine;; parcoursProfondeur 0) (Graphe_init 4) = Indefini.
Proof.
  unfold bind at 1. by rewrite construire_chaine_retour.
Qed.

(** * Further properties of the member functions *)

(** ** Lists *)

Lemma find_bool (l : list N) (x : N) :
  match find l x with Some _ => true | None => false end = bool_decide (x ∈ l).
Proof.
  destruct (find l x) as [it|] eqn:E.
  - symmetry. apply bool_decide_eq_true. by eapply find_Some_elem_of.
  - symmetry. apply bool_decide_eq_false. by apply find_None.
Qed.

Lemma filter_absent (l : list N) (x : N) : x ∉ l → filter (λ y, y ≠ x) l = l.
Proof.
  induction l as [|y l IH]; [done|]. intros [Hne Hl]%not_elem_of_cons.
  rewrite filter_cons_True by congruence. by rewrite IH.
Qed.

(** Erasing the first occurrence from a list without duplicates keeps the
    other elements in their order. *)
Lemma erase_filter (l : list N) (x : N) (it : nat) :
  NoDup l → find l x = Some it → delete it l = filter (λ y, y ≠ x) l.
Proof.
  intros Hnd; revert it; induction Hnd as [|y l Hy Hnd IH]; simpl; intros it; [done|].
  destruct (N.eqb_spec y x) as [->|Hne].
  - intros [= <-]; simpl.
    rewrite filter_cons_False by (intros H; by apply H).
    by rewrite filter_absent.
  - destruct (find l x) as [j|] eqn:E; simpl; [|done].
    intros [= <-]; simpl. rewrite filter_cons_True by done. by rewrite (IH j).
Qed.

Lemma maj_liste_identique (g : Graphe) (p_source : N) (liste : list N) :
  m_listesAdj g !! N.to_nat p_source = Some liste →
  maj_liste g p_source liste = g.
Proof.
  intros H. destruct g as [n noms listes]; unfold maj_liste; simpl in *.
  by rewrite list_insert_id.
Qed.

Lemma maj_liste_maj_liste (g : Graphe) (p_source : N) (l1 l2 : list N) :
  maj_liste (maj_liste g p_source l1) p_source l2 = maj_liste g p_source l2.
Proof. unfold maj_liste; simpl. by rewrite list_insert_insert_eq. Qed.

Lemma arcExiste_elem_of (g : Graphe) (p_source p_cible : N) (liste : list N) :
  p_source < m_nbSommets g → p_cible < m_nbSommets g →
  m_listesAdj g !! N.to_nat p_source = Some liste →
  arcExiste p_source p_cible g = Retour g (bool_decide (p_cible ∈ liste)).
Proof.
  intros Hs Hc Hliste. rewrite arcExiste_valide, Hliste by done.
  by rewrite find_bool.
Qed.

(** ** Removing an arc that does not exist *)

(** X1. For valid ids without an arc between them, [enleverArc] throws the
    missing-arc exception and the object (labels and adjacency lists) is the
    one before the call. *)
Theorem enleverArc_arc_absent (g : Graphe) (p_source p_cible : N) :
  p_source < m_nbSommets g → p_cible < m_nbSommets g →
  arcExiste p_source p_cible g = Retour g false →
  ∃ e, enleverArc p_source p_cible g = Leve g e ∧ EdgeNotFound e.
Proof.
  intros Hs Hc Hex. pose proof Hex as Hex'.
  rewrite arcExiste_valide in Hex' by done.
  destruct (m_listesAdj g !! N.to_nat p_source) as [liste|] eqn:Hliste; [|done].
  destruct (find liste p_cible) as [it|] eqn:Hfind; [done|].
  unfold enleverArc; deplier.
  destruct contrats; reduire; eexists; (split; [reflexivity|]);
    unfold EdgeNotFound; auto.
Qed.

(** ** Adding then removing an arc *)

(** X2. In an accessible state, for valid ids without an arc between them,
    [ajouterArc] followed by [enleverArc] returns and leaves the object
    exactly as it was: same labels, same adjacency lists in the same order. *)
Theorem ajouterArc_enleverArc_identite (g : Graphe) (p_source p_cible : N) :
  accessible g →
  p_source < m_nbSommets g → p_cible < m_nbSommets g →
  arcExiste p_source p_cible g = Retour g false →
  (ajouterArc p_source p_cible;; enleverArc p_source p_cible) g = Retour g tt.
Proof.
  intros Hacc Hs Hc Hex. pose proof (accessible_bien_forme g Hacc) as Hbf.
  destruct (tailles_listes g p_source) as [liste Hliste]; [apply Hbf | done |].
  rewrite (arcExiste_elem_of g _ _ liste) in Hex by done.
  assert (find liste p_cible = None) as Hfind.
  { apply find_None. intros H. by rewrite bool_decide_eq_true_2 in Hex. }
  pose proof (ajouterArc_valide g _ _ liste (proj1 Hbf) Hs Hc Hliste Hfind)
    as Hadd.
  set (g1 := maj_liste g p_source (liste ++ [p_cible])) in *.
  assert (bien_forme g1) as (Ht1 & Hnd1 & _).
  { apply (bien_forme_ajouterArc g g1 p_source p_cible Hbf). by rewrite Hadd. }
  assert (m_listesAdj g1 !! N.to_nat p_source = Some (liste ++ [p_cible]))
    as Hliste1.
  { apply list_lookup_insert_eq. by eapply lookup_lt_Some. }
  unfold bind. rewrite Hadd.
  rewrite (enleverArc_valide g1 _ _ (liste ++ [p_cible]) (length liste));
    try done.
  - unfold g1. by rewrite maj_liste_maj_liste, delete_push_back,
      maj_liste_identique.
  - by eapply Forall_lookup_1.
  - by apply find_push_back_absent.
Qed.

(** ** Queries agree with each other *)

(** X3. For valid ids in an accessible state, [arcExiste p_source p_cible] is
    true exactly when [p_cible] is in the vector returned by
    [listerSommetsAdjacents p_source]. *)
Theorem arcExiste_listerSommetsAdjacents (g : Graphe) (p_source p_cible : N) :
  accessible g → p_source < m_nbSommets g → p_cible < m_nbSommets g →
  ∃ sommets,
    listerSommetsAdjacents p_source g = Retour g sommets ∧
    arcExiste p_source p_cible g = Retour g (bool_decide (p_cible ∈ sommets)).
Proof.
  intros (Ht & _)%accessible_bien_forme Hs Hc.
  destruct (tailles_listes g p_source Ht Hs) as [liste Hliste].
  exists liste. rewrite listerSommetsAdjacents_valide, Hliste by done.
  split; [done|]. by apply arcExiste_elem_of.
Qed.

(** X4. In an accessible state the vector returned by
    [listerSommetsAdjacents] for a valid vertex has no duplicate and at most
    as many elements as the graph has vertices. *)
Theorem listerSommetsAdjacents_sans_doublon (g : Graphe) (p_sommet : N) :
  accessible g → p_sommet < m_nbSommets g →
  ∃ sommets,
    listerSommetsAdjacents p_sommet g = Retour g sommets ∧
    NoDup sommets ∧ N.of_nat (length sommets) ≤ m_nbSommets g.
Proof.
  intros (Ht & Hnd & Hcv)%accessible_bien_forme Hp.
  destruct (tailles_listes g p_sommet Ht Hp) as [liste Hliste].
  exists liste. rewrite listerSommetsAdjacents_valide, Hliste by done.
  pose proof (Forall_lookup_1 _ _ _ _ Hnd Hliste) as Hnd'.
  pose proof (Forall_lookup_1 _ _ _ _ Hcv Hliste) as Hcv'.
  repeat split; [done|]. by apply longueur_bornee.
Qed.

(** ** The constructor *)

(** X5. In the object built by the constructor, every valid vertex has the
    value-initialised label and no adjacent vertex, and there is no arc
    between any two valid vertices. *)
Theorem Graphe_init_vide (p_nbSommets p_sommet autre : N) :
  p_sommet < p_nbSommets → autre < p_nbSommets →
  reqNom p_sommet (Graphe_init p_nbSommets) =
    Retour (Graphe_init p_nbSommets) T_defaut ∧
  listerSommetsAdjacents p_sommet (Graphe_init p_nbSommets) =
    Retour (Graphe_init p_nbSommets) [] ∧
  arcExiste p_sommet autre (Graphe_init p_nbSommets) =
    Retour (Graphe_init p_nbSommets) false.
Proof.
  intros Hp Ha.
  rewrite reqNom_valide, listerSommetsAdjacents_valide, arcExiste_valide by done.
  simpl. rewrite !lookup_replicate_2 by lia. done.
Qed.

(** ** The number of vertices *)

(** X6. A call on an accessible object, whether it returns or throws, changes
    neither the number of vertices nor the sizes of the two vectors. *)
Theorem appel_conserve_tailles (g g' : Graphe) (a : appel) :
  accessible g → etat_apres (executer a g) = Some g' →
  m_nbSommets g' = m_nbSommets g ∧
  length (m_noms g') = length (m_noms g) ∧
  length (m_listesAdj g') = length (m_listesAdj g).
Proof.
  intros Hacc Hstep.
  pose proof (accessible_bien_forme g Hacc) as Hbf.
  assert (accessible g') as Hacc' by (by eapply acc_appel).
  pose proof (accessible_bien_forme g' Hacc') as ([Hn' Hl'] & _).
  destruct Hbf as ([Hn Hl] & _).
  enough (m_nbSommets g' = m_nbSommets g) by (split; [done | lia]).
  assert (bien_forme g) as Hbf by (by apply accessible_bien_forme).
  destruct a; cbv beta iota delta [executer] in Hstep.
  - destruct (nommer_issue g p_sommet p_nom Hbf) as [[e He]|[_ He]];
      rewrite He in Hstep; by injection Hstep as <-.
  - destruct (ajouterArc_issue g p_source p_cible Hbf)
      as [[e He]|(liste & _ & _ & _ & _ & He)];
      rewrite He in Hstep; by injection Hstep as <-.
  - destruct (enleverArc_issue g p_source p_cible Hbf)
      as [He|[[e He]|(liste & it & _ & _ & _ & _ & He)]];
      rewrite He in Hstep; try done; by injection Hstep as <-.
  - apply pure_etat_apres in Hstep as ->; [done | apply reqNom_pure].
  - apply pure_etat_apres in Hstep as ->; [done | apply arcExiste_pure].
  - apply pure_etat_apres in Hstep as ->; [done | apply reqNbSommets_pure].
  - apply pure_etat_apres in Hstep as ->;
      [done | apply listerSommetsAdjacents_pure].
  - apply pure_etat_apres in Hstep as ->; [done | apply ordreEntreeSommet_pure].
  - apply pure_etat_apres in Hstep as ->; [done | apply ordreSortieSommet_pure].
  - done.
  - done.
  - done.
  - done.
Qed.

(** X7. In every accessible state the two conditions of [verifieInvariant]
    hold: with the contract macros active it returns without throwing, and
    [reqNbSommets] is the size of both vectors. *)
Theorem verifieInvariant_accessible (g : Graphe) :
  accessible g →
  verifieInvariant g = Retour g tt ∧
  reqNbSommets g = Retour g (N.of_nat (length (m_noms g))) ∧
  reqNbSommets g = Retour g (N.of_nat (length (m_listesAdj g))).
Proof.
  intros ([Hn Hl] & _)%accessible_bien_forme.
  pose proof (tailles_eqb g (conj Hn Hl)) as [Hn' Hl'].
  split; [|by rewrite Hn, Hl].
  unfold verifieInvariant; deplier. destruct contrats; reduire; done.
Qed.

(** ** What the two arc mutators write *)

Lemma arc_absent_find (g : Graphe) (p_source p_cible : N) (liste : list N) :
  p_source < m_nbSommets g → p_cible < m_nbSommets g →
  m_listesAdj g !! N.to_nat p_source = Some liste →
  arcExiste p_source p_cible g = Retour g false → find liste p_cible = None.
Proof.
  intros Hs Hc Hliste Hex. rewrite arcExiste_valide, Hliste in Hex by done.
  by destruct (find liste p_cible).
Qed.

Lemma arc_present_find (g : Graphe) (p_source p_cible : N) (liste : list N) :
  p_source < m_nbSommets g → p_cible < m_nbSommets g →
  m_listesAdj g !! N.to_nat p_source = Some liste →
  arcExiste p_source p_cible g = Retour g true →
  ∃ it, find liste p_cible = Some it.
Proof.
  intros Hs Hc Hliste Hex. rewrite arcExiste_valide, Hliste in Hex by done.
  destruct (find liste p_cible); [eauto | done].
Qed.

Lemma autre_indice (p autre : N) : autre ≠ p → N.to_nat p ≠ N.to_nat autre.
Proof. lia. Qed.

(** X8. In an accessible state, for valid ids without an arc between them,
    [ajouterArc] returns; the vector of [listerSommetsAdjacents p_source] is
    the former one with [p_cible] appended at its end; the labels and the
    adjacency list of every other vertex are as before. *)
Theorem ajouterArc_effet (g : Graphe) (p_source p_cible : N) :
  accessible g →
  p_source < m_nbSommets g → p_cible < m_nbSommets g →
  arcExiste p_source p_cible g = Retour g false →
  ∃ g1 sommets,
    listerSommetsAdjacents p_source g = Retour g sommets ∧
    ajouterArc p_source p_cible g = Retour g1 tt ∧
    listerSommetsAdjacents p_source g1 = Retour g1 (sommets ++ [p_cible]) ∧
    m_noms g1 = m_noms g ∧
    ∀ autre, autre ≠ p_source →
      m_listesAdj g1 !! N.to_nat autre = m_listesAdj g !! N.to_nat autre.
Proof.
  intros (Ht & _)%accessible_bien_forme Hs Hc Hex.
  destruct (tailles_listes g p_source Ht Hs) as [liste Hliste].
  pose proof (arc_absent_find g _ _ liste Hs Hc Hliste Hex) as Hfind.
  exists (maj_liste g p_source (liste ++ [p_cible])), liste.
  rewrite !listerSommetsAdjacents_valide by done. simpl.
  rewrite Hliste, list_lookup_insert_eq by (by eapply lookup_lt_Some).
  repeat split; [by apply ajouterArc_valide|].
  intros autre Hne. by apply list_lookup_insert_ne, autre_indice.
Qed.

(** X9. In an accessible state, for valid ids with an arc between them,
    [enleverArc] returns; the vector of [listerSommetsAdjacents p_source] is
    the former one without [p_cible], the other targets keeping their order;
    [arcExiste] is then false; the labels and the adjacency list of every
    other vertex are as before. *)
Theorem enleverArc_effet (g : Graphe) (p_source p_cible : N) :
  accessible g →
  p_source < m_nbSommets g → p_cible < m_nbSommets g →
  arcExiste p_source p_cible g = Retour g true →
  ∃ g1 sommets,
    listerSommetsAdjacents p_source g = Retour g sommets ∧
    enleverArc p_source p_cible g = Retour g1 tt ∧
    listerSommetsAdjacents p_source g1 =
      Retour g1 (filter (λ cible, cible ≠ p_cible) sommets) ∧
    arcExiste p_source p_cible g1 = Retour g1 false ∧
    m_noms g1 = m_noms g ∧
    ∀ autre, autre ≠ p_source →
      m_listesAdj g1 !! N.to_nat autre = m_listesAdj g !! N.to_nat autre.
Proof.
  intros (Ht & Hnd & _)%accessible_bien_forme Hs Hc Hex.
  destruct (tailles_listes g p_source Ht Hs) as [liste Hliste].
  destruct (arc_present_find g _ _ liste Hs Hc Hliste Hex) as [it Hfind].
  pose proof (Forall_lookup_1 _ _ _ _ Hnd Hliste) as Hnd'.
  exists (maj_liste g p_source (delete it liste)), liste.
  rewrite !listerSommetsAdjacents_valide by done.
  rewrite (arcExiste_elem_of _ _ _ (delete it liste)); try done; simpl;
    [|by apply list_lookup_insert_eq; eapply lookup_lt_Some].
  rewrite Hliste, list_lookup_insert_eq by (by eapply lookup_lt_Some).
  rewrite (erase_filter liste p_cible it) by done.
  repeat split.
  - rewrite <- (erase_filter liste p_cible it) by done.
    by apply enleverArc_valide.
  - f_equal. apply bool_decide_eq_false. rewrite list_elem_of_filter.
    by intros [? _].
  - intros autre Hne. by apply list_lookup_insert_ne, autre_indice.
Qed.

(** X10. In an accessible state, [ajouterArc p_source p_cible] on valid ids
    without an arc between them returns and changes the answer of [arcExiste]
    for no other pair of valid ids. *)
Theorem ajouterArc_autres_arcs (g : Graphe) (p_source p_cible s c : N) :
  accessible g →
  p_source < m_nbSommets g → p_cible < m_nbSommets g →
  arcExiste p_source p_cible g = Retour g false →
  s < m_nbSommets g → c < m_nbSommets g → s ≠ p_source ∨ c ≠ p_cible →
  ∃ g1 existe,
    ajouterArc p_source p_cible g = Retour g1 tt ∧
    arcExiste s c g = Retour g existe ∧
    arcExiste s c g1 = Retour g1 existe.
Proof.
  intros (Ht & _)%accessible_bien_forme Hs Hc Hex Hs' Hc' Hne.
  destruct (tailles_listes g p_source Ht Hs) as [liste Hliste].
  destruct (tailles_listes g s Ht Hs') as [liste' Hliste'].
  pose proof (arc_absent_find g _ _ liste Hs Hc Hliste Hex) as Hfind.
  exists (maj_liste g p_source (liste ++ [p_cible])),
         (bool_decide (c ∈ liste')).
  split; [by apply ajouterArc_valide|].
  split; [by apply arcExiste_elem_of|].
  destruct (decide (s = p_source)) as [->|Hs_ne].
  - assert (liste' = liste) as -> by congruence.
    rewrite (arcExiste_elem_of _ _ _ (liste ++ [p_cible])); try done; simpl;
      [|by apply list_lookup_insert_eq; eapply lookup_lt_Some].
    f_equal. apply bool_decide_ext. rewrite elem_of_app, list_elem_of_singleton.
    destruct Hne; [done | tauto].
  - apply arcExiste_elem_of; try done. simpl.
    rewrite list_lookup_insert_ne; [done | by apply autre_indice].
Qed.

(** X11. In an accessible state, [enleverArc p_source p_cible] on valid ids
    with an arc between them returns and changes the answer of [arcExiste]
    for no other pair of valid ids. *)
Theorem enleverArc_autres_arcs (g : Graphe) (p_source p_cible s c : N) :
  accessible g →
  p_source < m_nbSommets g → p_cible < m_nbSommets g →
  arcExiste p_source p_cible g = Retour g true →
  s < m_nbSommets g → c < m_nbSommets g → s ≠ p_source ∨ c ≠ p_cible →
  ∃ g1 existe,
    enleverArc p_source p_cible g = Retour g1 tt ∧
    arcExiste s c g = Retour g existe ∧
    arcExiste s c g1 = Retour g1 existe.
Proof.
  intros (Ht & Hnd & _)%accessible_bien_forme Hs Hc Hex Hs' Hc' Hne.
  destruct (tailles_listes g p_source Ht Hs) as [liste Hliste].
  destruct (tailles_listes g s Ht Hs') as [liste' Hliste'].
  destruct (arc_present_find g _ _ liste Hs Hc Hliste Hex) as [it Hfind].
  pose proof (Forall_lookup_1 _ _ _ _ Hnd Hliste) as Hnd'.
  exists (maj_liste g p_source (delete it liste)), (bool_decide (c ∈ liste')).
  split; [by apply enleverArc_valide|].
  split; [by apply arcExiste_elem_of|].
  destruct (decide (s = p_source)) as [->|Hs_ne].
  - assert (liste' = liste) as -> by congruence.
    rewrite (arcExiste_elem_of _ _ _ (delete it liste)); try done; simpl;
      [|by apply list_lookup_insert_eq; eapply lookup_lt_Some].
    f_equal. apply bool_decide_ext.
    rewrite (erase_filter liste p_cible it), list_elem_of_filter by done.
    destruct Hne; [done | tauto].
  - apply arcExiste_elem_of; try done. simpl.
    rewrite list_lookup_insert_ne; [done | by apply autre_indice].
Qed.

(** ** Degrees and arcs *)

Lemma arcs_entrants_somme (p_sommet : N) (listes : list (list N)) :
  arcs_entrants p_sommet listes =
    somme (λ k, match listes !! k with
                | Some liste => N.of_nat (count_occ N.eq_dec liste p_sommet)
                | None => 0
                end) (length listes).
Proof.
  induction listes as [|liste listes IH]; [done|].
  change (length (liste :: listes)) with (S (length listes)).
  rewrite somme_debut. simpl. by rewrite IH.
Qed.

Lemma longueur_filter_somme (P : N → Prop) `{!∀ x, Decision (P x)} (n : nat) :
  N.of_nat (length (filter P (N.of_nat <$> seq 0 n))) =
    somme (λ k, if decide (P (N.of_nat k)) then 1 else 0) n.
Proof.
  induction n as [|n IH]; [done|].
  rewrite seq_S, fmap_app, filter_app, length_app, Nat2N.inj_add. simpl.
  rewrite <- IH. rewrite filter_cons, filter_nil.
  destruct (decide (P (N.of_nat n))); simpl; lia.
Qed.

Lemma count_occ_sans_doublon (liste : list N) (x : N) :
  NoDup liste →
  N.of_nat (count_occ N.eq_dec liste x) = if bool_decide (x ∈ liste) then 1 else 0.
Proof.
  induction 1 as [|y liste Hy Hnd IH]; [done|]. simpl.
  destruct (N.eq_dec y x) as [->|Hne].
  - rewrite bool_decide_eq_true_2 by left.
    rewrite bool_decide_eq_false_2 in IH by done. lia.
  - rewrite IH. apply not_eq_sym in Hne.
    rewrite (bool_decide_ext (x ∈ y :: liste) (x ∈ liste)); [done|].
    rewrite elem_of_cons. tauto.
Qed.

Lemma arcs_entrants_insert (p_sommet : N) (listes : list (list N)) (i : nat)
    (ancienne nouvelle : list N) :
  listes !! i = Some ancienne →
  arcs_entrants p_sommet (<[i := nouvelle]> listes) +
    N.of_nat (count_occ N.eq_dec ancienne p_sommet) =
  arcs_entrants p_sommet listes +
    N.of_nat (count_occ N.eq_dec nouvelle p_sommet).
Proof.
  revert i; induction listes as [|liste listes IH]; intros [|i]; simpl; try done.
  - intros [= ->]. lia.
  - intros H. specialize (IH i H). lia.
Qed.

Lemma arcs_entrants_sources (g : Graphe) (p_sommet : N) :
  tailles g → sans_doublon g → p_sommet < m_nbSommets g →
  arcs_entrants p_sommet (m_listesAdj g) =
    N.of_nat (length (sources p_sommet g)).
Proof.
  intros Ht Hnd Hp. pose proof Ht as [_ Hl].
  unfold sources. rewrite longueur_filter_somme, arcs_entrants_somme.
  replace (length (m_listesAdj g)) with (N.to_nat (m_nbSommets g)) by lia.
  apply somme_ext. intros k Hk.
  destruct (lookup_lt_is_Some_2 (m_listesAdj g) k) as [liste Hliste]; [lia|].
  rewrite (arcExiste_elem_of g _ _ liste), Hliste by (done || lia || by rewrite Nat2N.id).
  rewrite count_occ_sans_doublon by (by eapply Forall_lookup_1). simpl.
  destruct (bool_decide (p_sommet ∈ liste)); by case_decide.
Qed.

(** X12. In an accessible state whose number of vertices is an
    [unsigned int] value, [ordreEntreeSommet p_sommet] returns the number of
    vertices [s] for which [arcExiste s p_sommet] is true. *)
Theorem ordreEntreeSommet_sources (g : Graphe) (p_sommet : N) :
  accessible g → m_nbSommets g ≤ UINT_MAX → p_sommet < m_nbSommets g →
  ordreEntreeSommet p_sommet g =
    Retour g (N.of_nat (length (sources p_sommet g))).
Proof.
  intros (Ht & Hnd & _)%accessible_bien_forme Hmax Hp.
  rewrite ordreEntreeSommet_valide by done.
  rewrite <- arcs_entrants_sources by done.
  rewrite vers_unsigned_petit; [done|].
  pose proof (arcs_entrants_borne p_sommet _ Hnd). destruct Ht. lia.
Qed.

(** X13. In an accessible state whose number of vertices is an
    [unsigned int] value, both degrees of a valid vertex are at most the
    number of vertices. *)
Theorem degres_bornes (g : Graphe) (p_sommet : N) :
  accessible g → m_nbSommets g ≤ UINT_MAX → p_sommet < m_nbSommets g →
  ∃ sortie entree,
    ordreSortieSommet p_sommet g = Retour g sortie ∧
    ordreEntreeSommet p_sommet g = Retour g entree ∧
    sortie ≤ m_nbSommets g ∧ entree ≤ m_nbSommets g.
Proof.
  intros (Ht & Hnd & Hcv)%accessible_bien_forme Hmax Hp.
  destruct (tailles_listes g p_sommet Ht Hp) as [liste Hliste].
  pose proof (longueur_bornee liste (m_nbSommets g)
                (Forall_lookup_1 _ _ _ _ Hnd Hliste)
                (Forall_lookup_1 _ _ _ _ Hcv Hliste)) as Hlong.
  pose proof (arcs_entrants_borne p_sommet _ Hnd) as Hentree.
  destruct Ht as [Hn Hl].
  exists (N.of_nat (length liste)), (arcs_entrants p_sommet (m_listesAdj g)).
  rewrite ordreSortieSommet_valide, ordreEntreeSommet_valide, Hliste by done.
  rewrite !vers_unsigned_petit by lia. repeat split; lia.
Qed.

(** X14. In an accessible state whose number of vertices is an
    [unsigned int] value, [ajouterArc p_source p_cible] on valid ids without
    an arc between them raises the out-degree of [p_source] and the in-degree
    of [p_cible] by one. *)
Theorem ajouterArc_degres (g : Graphe) (p_source p_cible : N) :
  accessible g → m_nbSommets g ≤ UINT_MAX →
  p_source < m_nbSommets g → p_cible < m_nbSommets g →
  arcExiste p_source p_cible g = Retour g false →
  ∃ g1 sortie entree,
    ordreSortieSommet p_source g = Retour g sortie ∧
    ordreEntreeSommet p_cible g = Retour g entree ∧
    ajouterArc p_source p_cible g = Retour g1 tt ∧
    ordreSortieSommet p_source g1 = Retour g1 (sortie + 1) ∧
    ordreEntreeSommet p_cible g1 = Retour g1 (entree + 1).
Proof.
  intros Hacc Hmax Hs Hc Hex.
  pose proof (accessible_bien_forme g Hacc) as Hbf.
  pose proof Hbf as (Ht & Hnd & Hcv).
  destruct (tailles_listes g p_source Ht Hs) as [liste Hliste].
  pose proof (arc_absent_find g _ _ liste Hs Hc Hliste Hex) as Hfind.
  pose proof (ajouterArc_valide g _ _ liste Ht Hs Hc Hliste Hfind) as Hadd.
  set (g1 := maj_liste g p_source (liste ++ [p_cible])) in *.
  assert (bien_forme g1) as (Ht1 & Hnd1 & Hcv1).
  { apply (bien_forme_ajouterArc g g1 p_source p_cible Hbf). by rewrite Hadd. }
  assert (m_listesAdj g1 !! N.to_nat p_source = Some (liste ++ [p_cible]))
    as Hliste1.
  { apply list_lookup_insert_eq. by eapply lookup_lt_Some. }
  pose proof (longueur_bornee _ (m_nbSommets g)
                (Forall_lookup_1 _ _ _ _ Hnd1 Hliste1)
                (Forall_lookup_1 _ _ _ _ Hcv1 Hliste1)) as Hlong.
  rewrite length_app in Hlong; simpl in Hlong.
  pose proof (arcs_entrants_borne p_cible _ Hnd1) as Hentree1.
  pose proof (arcs_entrants_insert p_cible (m_listesAdj g) (N.to_nat p_source)
                liste (liste ++ [p_cible]) Hliste) as Hins.
  rewrite count_occ_app in Hins; simpl in Hins.
  destruct (N.eq_dec p_cible p_cible) as [_|]; [|done].
  change (<[N.to_nat p_source:=liste ++ [p_cible]]> (m_listesAdj g))
    with (m_listesAdj g1) in Hins.
  destruct Ht1 as [_ Hl1]. change (m_nbSommets g1) with (m_nbSommets g) in Hl1.
  exists g1, (N.of_nat (length liste)),
         (arcs_entrants p_cible (m_listesAdj g)).
  rewrite !ordreSortieSommet_valide, !ordreEntreeSommet_valide, Hliste, Hliste1
    by (done || apply (bien_forme_ajouterArc g g1 p_source p_cible Hbf);
        by rewrite Hadd).
  rewrite length_app. change (length [p_cible]) with 1%nat.
  rewrite !vers_unsigned_petit by lia.
  repeat split; try done; f_equal; lia.
Qed.

(** X15. In an accessible state whose number of vertices is an
    [unsigned int] value, [enleverArc p_source p_cible] on valid ids with an
    arc between them lowers the out-degree of [p_source] and the in-degree of
    [p_cible] by one. *)
Theorem enleverArc_degres (g : Graphe) (p_source p_cible : N) :
  accessible g → m_nbSommets g ≤ UINT_MAX →
  p_source < m_nbSommets g → p_cible < m_nbSommets g →
  arcExiste p_source p_cible g = Retour g true →
  ∃ g1 sortie entree,
    ordreSortieSommet p_source g = Retour g (sortie + 1) ∧
    ordreEntreeSommet p_cible g = Retour g (entree + 1) ∧
    enleverArc p_source p_cible g = Retour g1 tt ∧
    ordreSortieSommet p_source g1 = Retour g1 sortie ∧
    ordreEntreeSommet p_cible g1 = Retour g1 entree.
Proof.
  intros Hacc Hmax Hs Hc Hex.
  pose proof (accessible_bien_forme g Hacc) as Hbf.
  pose proof Hbf as (Ht & Hnd & Hcv).
  destruct (tailles_listes g p_source Ht Hs) as [liste Hliste].
  destruct (arc_present_find g _ _ liste Hs Hc Hliste Hex) as [it Hfind].
  pose proof (Forall_lookup_1 _ _ _ _ Hnd Hliste) as Hnd'.
  pose proof (enleverArc_valide g _ _ liste it Ht Hs Hc Hliste Hnd' Hfind)
    as Hrem.
  set (g1 := maj_liste g p_source (delete it liste)) in *.
  assert (bien_forme g1) as Hbf1.
  { apply (bien_forme_enleverArc g g1 p_source p_cible Hbf). by rewrite Hrem. }
  assert (m_listesAdj g1 !! N.to_nat p_source = Some (delete it liste))
    as Hliste1.
  { apply list_lookup_insert_eq. by eapply lookup_lt_Some. }
  pose proof (longueur_bornee _ (m_nbSommets g)
                (Forall_lookup_1 _ _ _ _ Hnd Hliste)
                (Forall_lookup_1 _ _ _ _ Hcv Hliste)) as Hlong.
  pose proof (arcs_entrants_borne p_cible _ Hnd) as Hentree.
  pose proof (arcs_entrants_insert p_cible (m_listesAdj g) (N.to_nat p_source)
                liste (delete it liste) Hliste) as Hins.
  rewrite !count_occ_sans_doublon in Hins by (done || by apply NoDup_delete).
  rewrite bool_decide_eq_true_2 in Hins by (by eapply find_Some_elem_of).
  rewrite bool_decide_eq_false_2 in Hins
    by (apply find_None; by apply find_erase).
  change (<[N.to_nat p_source:=delete it liste]> (m_listesAdj g))
    with (m_listesAdj g1) in Hins.
  assert (length liste = S (length (delete it liste))) as Hlen.
  { rewrite length_delete by (apply find_Some_lookup in Hfind; eauto).
    apply find_Some_lookup, lookup_lt_Some in Hfind. lia. }
  destruct Ht as [_ Hl].
  exists g1, (N.of_nat (length (delete it liste))),
         (arcs_entrants p_cible (m_listesAdj g1)).
  rewrite !ordreSortieSommet_valide, !ordreEntreeSommet_valide, Hliste, Hliste1
    by (done || apply Hbf1 || apply Hbf).
  rewrite !vers_unsigned_petit by lia.
  repeat split; try done; f_equal; lia.
Qed.

(** ** Labels *)

Lemma maj_nom_maj_nom (g : Graphe) (p_sommet : N) (x y : T) :
  maj_nom (maj_nom g p_sommet x) p_sommet y = maj_nom g p_sommet y.
Proof. unfold maj_nom; simpl. by rewrite list_insert_insert_eq. Qed.

(** X16. In an accessible state, naming a valid vertex twice is naming it
    with the second label: the first label leaves no trace in the object. *)
Theorem nommer_ecrase (g : Graphe) (p_sommet : N) (premier second : T) :
  accessible g → p_sommet < m_nbSommets g →
  (nommer p_sommet premier;; nommer p_sommet second) g =
    nommer p_sommet second g.
Proof.
  intros Hbf%accessible_bien_forme Hp.
  pose proof (bien_forme_maj_nom g p_sommet premier Hbf) as (Ht1 & _).
  unfold bind. rewrite !nommer_valide by (done || apply Hbf).
  by rewrite maj_nom_maj_nom.
Qed.

(** X17. In an accessible state, naming two different valid vertices gives
    the same object whichever is named first. *)
Theorem nommer_commute (g : Graphe) (p q : N) (x y : T) :
  accessible g → p < m_nbSommets g → q < m_nbSommets g → p ≠ q →
  (nommer p x;; nommer q y) g = (nommer q y;; nommer p x) g.
Proof.
  intros Hbf%accessible_bien_forme Hp Hq Hne.
  pose proof (bien_forme_maj_nom g p x Hbf) as (Htp & _).
  pose proof (bien_forme_maj_nom g q y Hbf) as (Htq & _).
  unfold bind. rewrite !(nommer_valide g) by (done || apply Hbf).
  rewrite ?nommer_valide by done.
  unfold maj_nom; simpl. rewrite list_insert_insert_ne; [done | lia].
Qed.

(** ** [enleverArc] with an id that is not a vertex *)

(** X18. In an accessible state, [enleverArc] with a valid source and a
    target that is not a vertex throws, with the contract macros active or
    not, and the object is unchanged: no adjacency list can hold that
    target. *)
Theorem enleverArc_cible_invalide (g : Graphe) (p_source p_cible : N) :
  accessible g → p_source < m_nbSommets g → m_nbSommets g ≤ p_cible →
  ∃ e, enleverArc p_source p_cible g = Leve g e ∧
       (EdgeNotFound e ∨ InvalidVertex e).
Proof.
  intros (Ht & _ & Hcv)%accessible_bien_forme Hs Hc.
  destruct (tailles_listes g p_source Ht Hs) as [liste Hliste].
  apply (enleverArc_absent g _ _ liste); [done..|].
  apply find_None. intros Hin.
  pose proof (Forall_lookup_1 _ _ _ _ Hcv Hliste) as H.
  rewrite Forall_forall in H. specialize (H _ Hin). simpl in H. lia.
Qed.

(** X19. With the contract macros active, [enleverArc] with a source or a
    target that is not a vertex throws the precondition exception of
    [arcExiste], on any object, and leaves it unchanged. *)
Theorem enleverArc_invalide_contrats (g : Graphe) (p_source p_cible : N) :
  contrats = true →
  m_nbSommets g ≤ p_source ∨ m_nbSommets g ≤ p_cible →
  ∃ e, enleverArc p_source p_cible g = Leve g e ∧ InvalidVertex e.
Proof.
  intros Hcontrats H.
  destruct (arcExiste_invalide g p_source p_cible H) as (e & He & Hinv).
  exists e. split; [|done].
  unfold enleverArc; deplier. rewrite Hcontrats. reduire. done.
Qed.

(** ** Graphs with more vertices than [UINT_MAX] *)







Lemma graphe_un_arc_accessible : accessible graphe_un_arc.
Proof.
  apply (acc_appel (Graphe_init 2) graphe_un_arc (a_ajouterArc 0 1));
    [apply acc_init|].
  unfold executer. par_calcul.
Qed.

End Graphe.

Arguments Retour {T A} g a.
Arguments Leve {T A} g e.
Arguments Indefini {T A}.
Arguments Diverge {T A}.

(** ** Ids that are not vertices, without the contract macros *)

(** C3. Not every call with an id that is not a vertex throws.  With the
    contract macros compiled out, [enleverArc 2 0] on a graph of two vertices
    indexes the vector of adjacency lists past its end: the behaviour is
    undefined.  [parcoursProfondeur 2] and [parcoursLargeur 2] have undefined
    behaviour as well, their bodies being empty. *)
Theorem enleverArc_sommet_invalide_indefini (T : Type) (T_defaut : T) :
  enleverArc T false 2 0 (Graphe_init T T_defaut 2) = Indefini ∧
  parcoursProfondeur T 2 (Graphe_init T T_defaut 2) = Indefini ∧
  parcoursLargeur T 2 (Graphe_init T T_defaut 2) = Indefini.
Proof. repeat split. Qed.

(** With the macros active the same call of [enleverArc] throws, from the
    precondition of [arcExiste]. *)
Remark enleverArc_sommet_invalide_contrats (T : Type) (T_defaut : T) :
  enleverArc T true 2 0 (Graphe_init T T_defaut 2) =
    Leve (Graphe_init T T_defaut 2)
         (PreconditionException "p_source < m_nbSommets").
Proof. reflexivity. Qed.

(** ** Outside the accessible states *)

(** Exceptions leave the object unchanged in accessible states only.  A list
    with the target 1 twice cannot be built by [ajouterArc]; on such an object
    and with the macros active, [enleverArc] erases the first 1 and then
    throws from its postcondition. *)
Remark enleverArc_doublon_hors_invariant :
  enleverArc nat true 0 1
    {| m_nbSommets := 2; m_noms := [O; O]; m_listesAdj := [[1; 1]; []] |} =
  Leve {| m_nbSommets := 2; m_noms := [O; O]; m_listesAdj := [[1]; []] |}
       (PostconditionException "!arcExiste(p_source, p_cible)").
Proof. reflexivity. Qed.

(** ** Instances *)

Lemma echec_sans_effet_temoin :
  accessible nat O true (graphe_un_arc nat O) ∧
  executer nat true (a_ajouterArc nat 0 1) (graphe_un_arc nat O) =
    Leve (graphe_un_arc nat O)
         (PreconditionException "!arcExiste(p_source, p_cible)") ∧
  graphe_un_arc nat O = graphe_un_arc nat O.
Proof.
  split; [apply graphe_un_arc_accessible|]. split; [reflexivity|].
  apply (echec_sans_effet nat O true (graphe_un_arc nat O) (graphe_un_arc nat O)
           (a_ajouterArc nat 0 1)
           (PreconditionException "!arcExiste(p_source, p_cible)")).
  - apply graphe_un_arc_accessible.
  - reflexivity.
Defined.

Lemma ajouterArc_arc_existant_temoin :
  0 < m_nbSommets nat (graphe_un_arc nat O) ∧
  1 < m_nbSommets nat (graphe_un_arc nat O) ∧
  arcExiste nat false 0 1 (graphe_un_arc nat O) =
    Retour (graphe_un_arc nat O) true ∧
  ∃ g' e, ajouterArc nat false 0 1 (graphe_un_arc nat O) = Leve g' e ∧
          DuplicateEdge e ∧
          m_listesAdj nat g' = m_listesAdj nat (graphe_un_arc nat O).
Proof.
  split; [reflexivity|]. split; [reflexivity|]. split; [reflexivity|].
  apply (ajouterArc_arc_existant nat false (graphe_un_arc nat O) 0 1);
    reflexivity.
Defined.

Lemma ajouterArc_puis_enleverArc_temoin :
  accessible nat O true (graphe_un_arc nat O) ∧
  1 < m_nbSommets nat (graphe_un_arc nat O) ∧
  0 < m_nbSommets nat (graphe_un_arc nat O) ∧
  arcExiste nat true 1 0 (graphe_un_arc nat O) =
    Retour (graphe_un_arc nat O) false ∧
  ∃ g1 g2,
    ajouterArc nat true 1 0 (graphe_un_arc nat O) = Retour g1 tt ∧
    arcExiste nat true 1 0 g1 = Retour g1 true ∧
    enleverArc nat true 1 0 g1 = Retour g2 tt ∧
    arcExiste nat true 1 0 g2 = Retour g2 false.
Proof.
  split; [apply graphe_un_arc_accessible|].
  split; [reflexivity|]. split; [reflexivity|]. split; [reflexivity|].
  apply (ajouterArc_puis_enleverArc nat O true (graphe_un_arc nat O) 1 0).
  - apply graphe_un_arc_accessible.
  - reflexivity.
  - reflexivity.
  - reflexivity.
Defined.

Lemma nommer_puis_reqNom_temoin :
  accessible nat O false (graphe_un_arc nat O) ∧
  1 < m_nbSommets nat (graphe_un_arc nat O) ∧
  ∃ g1, nommer nat false 1 7%nat (graphe_un_arc nat O) = Retour g1 tt ∧
        reqNom nat false 1 g1 = Retour g1 7%nat.
Proof.
  split; [apply graphe_un_arc_accessible|]. split; [reflexivity|].
  apply (nommer_puis_reqNom nat O false (graphe_un_arc nat O) 1 7%nat).
  - apply graphe_un_arc_accessible.
  - reflexivity.
Defined.



Lemma nommer_cadre_temoin :
  accessible nat O true (graphe_un_arc nat O) ∧
  0 < m_nbSommets nat (graphe_un_arc nat O) ∧
  ∃ g1, nommer nat true 0 7%nat (graphe_un_arc nat O) = Retour g1 tt ∧
        m_nbSommets nat g1 = m_nbSommets nat (graphe_un_arc nat O) ∧
        m_listesAdj nat g1 = m_listesAdj nat (graphe_un_arc nat O) ∧
        length (m_noms nat g1) = length (m_noms nat (graphe_un_arc nat O)) ∧
        ∀ autre, autre ≠ 0 →
          m_noms nat g1 !! N.to_nat autre =
            m_noms nat (graphe_un_arc nat O) !! N.to_nat autre.
Proof.
  split; [apply graphe_un_arc_accessible|]. split; [reflexivity|].
  apply (nommer_cadre nat O true (graphe_un_arc nat O) 0 7%nat).
  - apply graphe_un_arc_accessible.
  - reflexivity.
Defined.

Lemma cibles_valides_accessible_temoin :
  accessible nat O true (graphe_un_arc nat O) ∧
  m_listesAdj nat (graphe_un_arc nat O) !! O = Some [1] ∧
  1 ∈ [1] ∧
  1 < m_nbSommets nat (graphe_un_arc nat O).
Proof.
  split; [apply graphe_un_arc_accessible|]. split; [reflexivity|].
  split; [left|].
  apply (cibles_valides_accessible nat O true (graphe_un_arc nat O) O [1] 1).
  - apply graphe_un_arc_accessible.
  - reflexivity.
  - left.
Defined.

(** ** Instances of the further properties *)

Ltac par_evaluation :=
  first [ reflexivity | apply graphe_un_arc_accessible | by vm_compute
        | left; by vm_compute ].

Lemma enleverArc_arc_absent_temoin :
  1 < m_nbSommets nat (graphe_un_arc nat O) ∧
  0 < m_nbSommets nat (graphe_un_arc nat O) ∧
  arcExiste nat true 1 0 (graphe_un_arc nat O) =
    Retour (graphe_un_arc nat O) false ∧
  ∃ e, enleverArc nat true 1 0 (graphe_un_arc nat O) =
         Leve (graphe_un_arc nat O) e ∧ EdgeNotFound e.
Proof.
  do 3 (split; [par_evaluation|]).
  apply (enleverArc_arc_absent nat true (graphe_un_arc nat O) 1 0);
    par_evaluation.
Defined.

Lemma ajouterArc_enleverArc_identite_temoin :
  accessible nat O true (graphe_un_arc nat O) ∧
  1 < m_nbSommets nat (graphe_un_arc nat O) ∧
  0 < m_nbSommets nat (graphe_un_arc nat O) ∧
  arcExiste nat true 1 0 (graphe_un_arc nat O) =
    Retour (graphe_un_arc nat O) false ∧
  bind nat (ajouterArc nat true 1 0) (λ _, enleverArc nat true 1 0)
       (graphe_un_arc nat O) = Retour (graphe_un_arc nat O) tt.
Proof.
  do 4 (split; [par_evaluation|]).
  apply (ajouterArc_enleverArc_identite nat O true (graphe_un_arc nat O) 1 0);
    par_evaluation.
Defined.

Lemma arcExiste_listerSommetsAdjacents_temoin :
  accessible nat O true (graphe_un_arc nat O) ∧
  0 < m_nbSommets nat (graphe_un_arc nat O) ∧
  1 < m_nbSommets nat (graphe_un_arc nat O) ∧
  ∃ sommets,
    listerSommetsAdjacents nat true 0 (graphe_un_arc nat O) =
      Retour (graphe_un_arc nat O) sommets ∧
    arcExiste nat true 0 1 (graphe_un_arc nat O) =
      Retour (graphe_un_arc nat O) (bool_decide (1 ∈ sommets)).
Proof.
  do 3 (split; [par_evaluation|]).
  apply (arcExiste_listerSommetsAdjacents nat O true (graphe_un_arc nat O) 0 1);
    par_evaluation.
Defined.

Lemma listerSommetsAdjacents_sans_doublon_temoin :
  accessible nat O true (graphe_un_arc nat O) ∧
  0 < m_nbSommets nat (graphe_un_arc nat O) ∧
  ∃ sommets,
    listerSommetsAdjacents nat true 0 (graphe_un_arc nat O) =
      Retour (graphe_un_arc nat O) sommets ∧
    NoDup sommets ∧
    N.of_nat (length sommets) ≤ m_nbSommets nat (graphe_un_arc nat O).
Proof.
  do 2 (split; [par_evaluation|]).
  apply (listerSommetsAdjacents_sans_doublon nat O true (graphe_un_arc nat O) 0);
    par_evaluation.
Defined.

Lemma Graphe_init_vide_temoin :
  1 < 3 ∧ 2 < 3 ∧
  reqNom nat true 1 (Graphe_init nat O 3) = Retour (Graphe_init nat O 3) O ∧
  listerSommetsAdjacents nat true 1 (Graphe_init nat O 3) =
    Retour (Graphe_init nat O 3) [] ∧
  arcExiste nat true 1 2 (Graphe_init nat O 3) =
    Retour (Graphe_init nat O 3) false.
Proof.
  do 2 (split; [par_evaluation|]).
  apply (Graphe_init_vide nat O true 3 1 2); par_evaluation.
Defined.

Lemma appel_conserve_tailles_temoin :
  accessible nat O true (graphe_un_arc nat O) ∧
  etat_apres nat (executer nat true (a_ajouterArc nat 1 0) (graphe_un_arc nat O))
    = Some {| m_nbSommets := 2; m_noms := [O; O];
              m_listesAdj := [[1]; [0]] |} ∧
  m_nbSommets nat {| m_nbSommets := 2; m_noms := [O; O];
                     m_listesAdj := [[1]; [0]] |} =
    m_nbSommets nat (graphe_un_arc nat O) ∧
  length (m_noms nat {| m_nbSommets := 2; m_noms := [O; O];
                        m_listesAdj := [[1]; [0]] |}) =
    length (m_noms nat (graphe_un_arc nat O)) ∧
  length (m_listesAdj nat {| m_nbSommets := 2; m_noms := [O; O];
                             m_listesAdj := [[1]; [0]] |}) =
    length (m_listesAdj nat (graphe_un_arc nat O)).
Proof.
  do 2 (split; [par_evaluation|]).
  apply (appel_conserve_tailles nat O true (graphe_un_arc nat O) _
           (a_ajouterArc nat 1 0)); par_evaluation.
Defined.

Lemma verifieInvariant_accessible_temoin :
  accessible nat O true (graphe_un_arc nat O) ∧
  verifieInvariant nat true (graphe_un_arc nat O) =
    Retour (graphe_un_arc nat O) tt ∧
  reqNbSommets nat (graphe_un_arc nat O) = Retour (graphe_un_arc nat O) 2 ∧
  reqNbSommets nat (graphe_un_arc nat O) = Retour (graphe_un_arc nat O) 2.
Proof.
  split; [par_evaluation|].
  apply (verifieInvariant_accessible nat O true (graphe_un_arc nat O));
    par_evaluation.
Defined.

Lemma ajouterArc_effet_temoin :
  accessible nat O true (graphe_un_arc nat O) ∧
  1 < m_nbSommets nat (graphe_un_arc nat O) ∧
  0 < m_nbSommets nat (graphe_un_arc nat O) ∧
  arcExiste nat true 1 0 (graphe_un_arc nat O) =
    Retour (graphe_un_arc nat O) false ∧
  ∃ g1 sommets,
    listerSommetsAdjacents nat true 1 (graphe_un_arc nat O) =
      Retour (graphe_un_arc nat O) sommets ∧
    ajouterArc nat true 1 0 (graphe_un_arc nat O) = Retour g1 tt ∧
    listerSommetsAdjacents nat true 1 g1 = Retour g1 (sommets ++ [0]) ∧
    m_noms nat g1 = m_noms nat (graphe_un_arc nat O) ∧
    ∀ autre, autre ≠ 1 →
      m_listesAdj nat g1 !! N.to_nat autre =
        m_listesAdj nat (graphe_un_arc nat O) !! N.to_nat autre.
Proof.
  do 4 (split; [par_evaluation|]).
  apply (ajouterArc_effet nat O true (graphe_un_arc nat O) 1 0);
    par_evaluation.
Defined.

Lemma enleverArc_effet_temoin :
  accessible nat O true (graphe_un_arc nat O) ∧
  0 < m_nbSommets nat (graphe_un_arc nat O) ∧
  1 < m_nbSommets nat (graphe_un_arc nat O) ∧
  arcExiste nat true 0 1 (graphe_un_arc nat O) =
    Retour (graphe_un_arc nat O) true ∧
  ∃ g1 sommets,
    listerSommetsAdjacents nat true 0 (graphe_un_arc nat O) =
      Retour (graphe_un_arc nat O) sommets ∧
    enleverArc nat true 0 1 (graphe_un_arc nat O) = Retour g1 tt ∧
    listerSommetsAdjacents nat true 0 g1 =
      Retour g1 (filter (λ cible, cible ≠ 1) sommets) ∧
    arcExiste nat true 0 1 g1 = Retour g1 false ∧
    m_noms nat g1 = m_noms nat (graphe_un_arc nat O) ∧
    ∀ autre, autre ≠ 0 →
      m_listesAdj nat g1 !! N.to_nat autre =
        m_listesAdj nat (graphe_un_arc nat O) !! N.to_nat autre.
Proof.
  do 4 (split; [par_evaluation|]).
  apply (enleverArc_effet nat O true (graphe_un_arc nat O) 0 1);
    par_evaluation.
Defined.

Lemma ajouterArc_autres_arcs_temoin :
  accessible nat O true (graphe_un_arc nat O) ∧
  1 < m_nbSommets nat (graphe_un_arc nat O) ∧
  0 < m_nbSommets nat (graphe_un_arc nat O) ∧
  arcExiste nat true 1 0 (graphe_un_arc nat O) =
    Retour (graphe_un_arc nat O) false ∧
  0 < m_nbSommets nat (graphe_un_arc nat O) ∧
  1 < m_nbSommets nat (graphe_un_arc nat O) ∧
  (0 ≠ 1 ∨ 1 ≠ 0) ∧
  ∃ g1 existe,
    ajouterArc nat true 1 0 (graphe_un_arc nat O) = Retour g1 tt ∧
    arcExiste nat true 0 1 (graphe_un_arc nat O) =
      Retour (graphe_un_arc nat O) existe ∧
    arcExiste nat true 0 1 g1 = Retour g1 existe.
Proof.
  do 7 (split; [par_evaluation|]).
  apply (ajouterArc_autres_arcs nat O true (graphe_un_arc nat O) 1 0 0 1);
    par_evaluation.
Defined.

Lemma enleverArc_autres_arcs_temoin :
  accessible nat O true (graphe_un_arc nat O) ∧
  0 < m_nbSommets nat (graphe_un_arc nat O) ∧
  1 < m_nbSommets nat (graphe_un_arc nat O) ∧
  arcExiste nat true 0 1 (graphe_un_arc nat O) =
    Retour (graphe_un_arc nat O) true ∧
  1 < m_nbSommets nat (graphe_un_arc nat O) ∧
  0 < m_nbSommets nat (graphe_un_arc nat O) ∧
  (1 ≠ 0 ∨ 0 ≠ 1) ∧
  ∃ g1 existe,
    enleverArc nat true 0 1 (graphe_un_arc nat O) = Retour g1 tt ∧
    arcExiste nat true 1 0 (graphe_un_arc nat O) =
      Retour (graphe_un_arc nat O) existe ∧
    arcExiste nat true 1 0 g1 = Retour g1 existe.
Proof.
  do 7 (split; [par_evaluation|]).
  apply (enleverArc_autres_arcs nat O true (graphe_un_arc nat O) 0 1 1 0);
    par_evaluation.
Defined.

Lemma ordreEntreeSommet_sources_temoin :
  accessible nat O true (graphe_un_arc nat O) ∧
  m_nbSommets nat (graphe_un_arc nat O) ≤ UINT_MAX ∧
  1 < m_nbSommets nat (graphe_un_arc nat O) ∧
  ordreEntreeSommet nat true 1 (graphe_un_arc nat O) =
    Retour (graphe_un_arc nat O)
           (N.of_nat (length (sources nat true 1 (graphe_un_arc nat O)))).
Proof.
  do 3 (split; [par_evaluation|]).
  apply (ordreEntreeSommet_sources nat O true (graphe_un_arc nat O) 1);
    par_evaluation.
Defined.

Lemma degres_bornes_temoin :
  accessible nat O true (graphe_un_arc nat O) ∧
  m_nbSommets nat (graphe_un_arc nat O) ≤ UINT_MAX ∧
  1 < m_nbSommets nat (graphe_un_arc nat O) ∧
  ∃ sortie entree,
    ordreSortieSommet nat true 1 (graphe_un_arc nat O) =
      Retour (graphe_un_arc nat O) sortie ∧
    ordreEntreeSommet nat true 1 (graphe_un_arc nat O) =
      Retour (graphe_un_arc nat O) entree ∧
    sortie ≤ m_nbSommets nat (graphe_un_arc nat O) ∧
    entree ≤ m_nbSommets nat (graphe_un_arc nat O).
Proof.
  do 3 (split; [par_evaluation|]).
  apply (degres_bornes nat O true (graphe_un_arc nat O) 1); par_evaluation.
Defined.

Lemma ajouterArc_degres_temoin :
  accessible nat O true (graphe_un_arc nat O) ∧
  m_nbSommets nat (graphe_un_arc nat O) ≤ UINT_MAX ∧
  1 < m_nbSommets nat (graphe_un_arc nat O) ∧
  0 < m_nbSommets nat (graphe_un_arc nat O) ∧
  arcExiste nat true 1 0 (graphe_un_arc nat O) =
    Retour (graphe_un_arc nat O) false ∧
  ∃ g1 sortie entree,
    ordreSortieSommet nat true 1 (graphe_un_arc nat O) =
      Retour (graphe_un_arc nat O) sortie ∧
    ordreEntreeSommet nat true 0 (graphe_un_arc nat O) =
      Retour (graphe_un_arc nat O) entree ∧
    ajouterArc nat true 1 0 (graphe_un_arc nat O) = Retour g1 tt ∧
    ordreSortieSommet nat true 1 g1 = Retour g1 (sortie + 1) ∧
    ordreEntreeSommet nat true 0 g1 = Retour g1 (entree + 1).
Proof.
  do 5 (split; [par_evaluation|]).
  apply (ajouterArc_degres nat O true (graphe_un_arc nat O) 1 0);
    par_evaluation.
Defined.

Lemma enleverArc_degres_temoin :
  accessible nat O true (graphe_un_arc nat O) ∧
  m_nbSommets nat (graphe_un_arc nat O) ≤ UINT_MAX ∧
  0 < m_nbSommets nat (graphe_un_arc nat O) ∧
  1 < m_nbSommets nat (graphe_un_arc nat O) ∧
  arcExiste nat true 0 1 (graphe_un_arc nat O) =
    Retour (graphe_un_arc nat O) true ∧
  ∃ g1 sortie entree,
    ordreSortieSommet nat true 0 (graphe_un_arc nat O) =
      Retour (graphe_un_arc nat O) (sortie + 1) ∧
    ordreEntreeSommet nat true 1 (graphe_un_arc nat O) =
      Retour (graphe_un_arc nat O) (entree + 1) ∧
    enleverArc nat true 0 1 (graphe_un_arc nat O) = Retour g1 tt ∧
    ordreSortieSommet nat true 0 g1 = Retour g1 sortie ∧
    ordreEntreeSommet nat true 1 g1 = Retour g1 entree.
Proof.
  do 5 (split; [par_evaluation|]).
  apply (enleverArc_degres nat O true (graphe_un_arc nat O) 0 1);
    par_evaluation.
Defined.

Lemma nommer_ecrase_temoin :
  accessible nat O false (graphe_un_arc nat O) ∧
  0 < m_nbSommets nat (graphe_un_arc nat O) ∧
  bind nat (nommer nat false 0 3%nat) (λ _, nommer nat false 0 4%nat)
       (graphe_un_arc nat O) =
    nommer nat false 0 4%nat (graphe_un_arc nat O).
Proof.
  do 2 (split; [par_evaluation|]).
  apply (nommer_ecrase nat O false (graphe_un_arc nat O) 0 3%nat 4%nat);
    par_evaluation.
Defined.

Lemma nommer_commute_temoin :
  accessible nat O true (graphe_un_arc nat O) ∧
  0 < m_nbSommets nat (graphe_un_arc nat O) ∧
  1 < m_nbSommets nat (graphe_un_arc nat O) ∧
  0 ≠ 1 ∧
  bind nat (nommer nat true 0 3%nat) (λ _, nommer nat true 1 4%nat)
       (graphe_un_arc nat O) =
    bind nat (nommer nat true 1 4%nat) (λ _, nommer nat true 0 3%nat)
         (graphe_un_arc nat O).
Proof.
  do 4 (split; [par_evaluation|]).
  apply (nommer_commute nat O true (graphe_un_arc nat O) 0 1 3%nat 4%nat);
    par_evaluation.
Defined.

Lemma enleverArc_cible_invalide_temoin :
  accessible nat O false (graphe_un_arc nat O) ∧
  0 < m_nbSommets nat (graphe_un_arc nat O) ∧
  m_nbSommets nat (graphe_un_arc nat O) ≤ 5 ∧
  ∃ e, enleverArc nat false 0 5 (graphe_un_arc nat O) =
         Leve (graphe_un_arc nat O) e ∧
       (EdgeNotFound e ∨ InvalidVertex e).
Proof.
  do 3 (split; [par_evaluation|]).
  apply (enleverArc_cible_invalide nat O false (graphe_un_arc nat O) 0 5);
    par_evaluation.
Defined.

Lemma enleverArc_invalide_contrats_temoin :
  true = true ∧
  (m_nbSommets nat (graphe_un_arc nat O) ≤ 5 ∨
   m_nbSommets nat (graphe_un_arc nat O) ≤ 0) ∧
  ∃ e, enleverArc nat true 5 0 (graphe_un_arc nat O) =
         Leve (graphe_un_arc nat O) e ∧ InvalidVertex e.
Proof.
  do 2 (split; [par_evaluation|]).
  apply (enleverArc_invalide_contrats nat true (graphe_un_arc nat O) 5 0);
    par_evaluation.
Defined.

Lemma sommet_invalide_exception_temoin :
  m_nbSommets nat (graphe_un_arc nat O) ≤ 5 ∧
  (∃ e, nommer nat false 5 O (graphe_un_arc nat O) =
          Leve (graphe_un_arc nat O) e ∧ InvalidVertex e) ∧
  (∃ e, reqNom nat false 5 (graphe_un_arc nat O) =
          Leve (graphe_un_arc nat O) e ∧ InvalidVertex e) ∧
  (∃ e, arcExiste nat false 5 0 (graphe_un_arc nat O) =
          Leve (graphe_un_arc nat O) e ∧ InvalidVertex e) ∧
  (∃ e, arcExiste nat false 0 5 (graphe_un_arc nat O) =
          Leve (graphe_un_arc nat O) e ∧ InvalidVertex e) ∧
  (∃ e, ajouterArc nat false 5 0 (graphe_un_arc nat O) =
          Leve (graphe_un_arc nat O) e ∧ InvalidVertex e) ∧
  (∃ e, ajouterArc nat false 0 5 (graphe_un_arc nat O) =
          Leve (graphe_un_arc nat O) e ∧ InvalidVertex e) ∧
  (∃ e, listerSommetsAdjacents nat false 5 (graphe_un_arc nat O) =
          Leve (graphe_un_arc nat O) e ∧ InvalidVertex e) ∧
  (∃ e, ordreEntreeSommet nat false 5 (graphe_un_arc nat O) =
          Leve (graphe_un_arc nat O) e ∧ InvalidVertex e) ∧
  (∃ e, ordreSortieSommet nat false 5 (graphe_un_arc nat O) =
          Leve (graphe_un_arc nat O) e ∧ InvalidVertex e).
Proof.
  split; [par_evaluation|].
  apply (sommet_invalide_exception nat false (graphe_un_arc nat O) 5 0 O);
    par_evaluation.
Defined.

(** ** The degrees without the bound on the number of vertices *)


